(** * Verification of lineup2spotify's reconciliation pipeline

    Shallow embedding of [create_spotify_playlist.py].  A Python [str] is a
    sequence of Unicode code points, modelled as [list N]; Python sets are
    stdpp [gset]s, Python dicts stdpp [gmap]s (or, where insertion order is
    observable, an insertion-ordered key list). *)

From Stdlib Require Import String Ascii List.
From stdpp Require Import base list gmap sets.
Import ListNotations.

(* ------------------------------------------------------------------ *)
(** ** Python strings *)

Abbreviation pystr := (list N).

(** ASCII literal to code points. *)
Definition str (s : string) : pystr :=
  map (fun a => N_of_ascii a) (list_ascii_of_string s).

Definition SPACE : N := 32.
Definition HYPHEN : N := 45.
Definition APOS : N := 39.
Definition EN_DASH : N := 8211.    (* "–" *)
Definition EM_DASH : N := 8212.    (* "—" *)
Definition MINUS_SIGN : N := 8722. (* "−" *)
Definition RSQUO : N := 8217.      (* "’" *)

(** [str.isspace] / regex [\s] on [str] patterns: the Unicode white space
    code points (both use [Py_UNICODE_ISSPACE]). *)
Definition is_space (c : N) : bool :=
  ((9 <=? c) && (c <=? 13))%N || ((28 <=? c) && (c <=? 32))%N
  || (c =? 133)%N || (c =? 160)%N || (c =? 5760)%N
  || ((8192 <=? c) && (c <=? 8202))%N
  || (c =? 8232)%N || (c =? 8233)%N || (c =? 8239)%N || (c =? 8287)%N
  || (c =? 12288)%N.

Fixpoint all_space (s : pystr) : bool :=
  match s with [] => true | c :: t => is_space c && all_space t end.

(** [s.lstrip()] *)
Fixpoint lstrip (s : pystr) : pystr :=
  match s with
  | [] => []
  | c :: t => if is_space c then lstrip t else s
  end.

(** [s.rstrip()] *)
Definition rstrip (s : pystr) : pystr := rev (lstrip (rev s)).

(** [s.strip()] *)
Definition strip (s : pystr) : pystr := rstrip (lstrip s).

(** [s.replace(a, b)] for a one-character [a] and [b]. *)
Definition replace_char (a b : N) (s : pystr) : pystr :=
  map (fun c => if (c =? a)%N then b else c) s.

(** [re.sub(r"\s+", " ", s)]: the scan matches each maximal run of white
    space (greedy [+]) and writes one space for it.  [in_run] is true while
    the scan is inside a run whose space has been written. *)
Fixpoint sub_ws_go (in_run : bool) (s : pystr) : pystr :=
  match s with
  | [] => []
  | c :: t =>
      if is_space c then
        if in_run then sub_ws_go true t else SPACE :: sub_ws_go true t
      else c :: sub_ws_go false t
  end.

Definition sub_ws (s : pystr) : pystr := sub_ws_go false s.

(** [re.sub(r"\s*-\s*", " - ", s)]: a match is a white-space run (greedy,
    possibly empty) directly followed by ["-"], together with the whole
    white-space run after the ["-"] (greedy).  White space that is not
    followed by ["-"] matches nothing and is copied.  [after] is true
    while the trailing run of the last match is being consumed; [pend]
    holds copied-or-dropped white space not yet known to precede ["-"]. *)
Fixpoint sub_dash_go (after : bool) (pend : pystr) (s : pystr) : pystr :=
  match s with
  | [] => if after then [] else pend
  | c :: t =>
      if (c =? HYPHEN)%N then [SPACE; HYPHEN; SPACE] ++ sub_dash_go true [] t
      else if is_space c then
        if after then sub_dash_go true [] t
        else sub_dash_go false (pend ++ [c]) t
      else pend ++ c :: sub_dash_go false [] t
  end.

Definition sub_dash (s : pystr) : pystr := sub_dash_go false [] s.

Section Normalize.

(** Python's [str.lower] (Unicode full lower-case mapping, including the
    context-dependent final sigma) is a parameter of the development. *)
Variable lower : pystr -> pystr.

(** [normalize_playlist_name] *)
Definition normalize_playlist_name (name : pystr) : pystr :=
  let normalized := lower name in
  let normalized := replace_char MINUS_SIGN HYPHEN
                      (replace_char EM_DASH HYPHEN
                         (replace_char EN_DASH HYPHEN normalized)) in
  let normalized := replace_char RSQUO APOS normalized in
  let normalized := sub_ws normalized in
  let normalized := sub_dash normalized in
  strip normalized.

End Normalize.

(** The ASCII part of [str.lower]. *)
Definition ascii_lower_char (c : N) : N :=
  if ((65 <=? c) && (c <=? 90))%N then (c + 32)%N else c.

Definition ascii_lower (s : pystr) : pystr := map ascii_lower_char s.

(** Helpers of the proofs about [normalize_playlist_name]. *)

(** Output of [sub_ws_go]: no two adjacent white-space characters, and
    every white-space character is a plain space. *)
Fixpoint collapsed (prev_ws : bool) (w : pystr) : bool :=
  match w with
  | [] => true
  | c :: t =>
      if is_space c then negb prev_ws && (c =? SPACE)%N && collapsed true t
      else collapsed false t
  end.

(** The two substitutions in the order [normalize_playlist_name] applies them. *)
Definition subs (y : pystr) : pystr := sub_dash (sub_ws y).

Definition is_special (d : N) : bool :=
  (d =? EN_DASH)%N || (d =? EM_DASH)%N || (d =? MINUS_SIGN)%N || (d =? RSQUO)%N.

(** The four [str.replace] calls of [normalize_playlist_name]. *)
Definition replacements (y : pystr) : pystr :=
  replace_char RSQUO APOS
    (replace_char MINUS_SIGN HYPHEN
       (replace_char EM_DASH HYPHEN (replace_char EN_DASH HYPHEN y))).

(* ------------------------------------------------------------------ *)
(** ** The Spotify client, the world and the run monad *)

(** An artist object of a search result. *)
Record artist := mk_artist {
  ar_id : pystr;
  ar_name : pystr;   (* [artist.get("name", "")] *)
  ar_url : pystr;    (* [artist.get("external_urls", {}).get("spotify", "")] *)
}.

(** A playlist object of [current_user_playlists]. *)
Record playlist := mk_playlist {
  pl_id : pystr;     (* [playlist.get("id")], [""] when absent *)
  pl_name : pystr;   (* [playlist.get("name")], [""] when absent *)
  pl_owner : pystr;  (* [playlist.get("owner", {}).get("id")] *)
}.

(** The calls issued to the Spotify Web API, in the order issued. *)
Inductive call :=
| CurrentUser
| Search (q : pystr) (limit : Z)
| ArtistTopTracks (artist_id : pystr)
| CurrentUserPlaylists (limit offset : Z)
| UnfollowPlaylist (playlist_id : pystr)
| PlaylistTracks (playlist_id : pystr)
| CreatePlaylist (user name : pystr) (public : bool) (description : pystr)
| ReplaceItems (playlist_id : pystr) (uris : list pystr)
| AddItems (playlist_id : pystr) (uris : list pystr)
| UploadCover (playlist_id : pystr).

(** The read-only part of the service: what each query returns. *)
Record api := mk_api {
  api_user_id : pystr;                              (* [current_user()["id"]] *)
  api_search : pystr -> Z -> list artist;           (* [search(q, limit)] items *)
  api_top_tracks : pystr -> list (option pystr);    (* track [uri]s, [None] if absent *)
  api_playlist_tracks : pystr -> list (list (option pystr)); (* pages of item track uris *)
  api_new_playlist_id : pystr;                      (* id of a created playlist *)
}.

(** The mutable part: the user's playlists as listed by
    [current_user_playlists], the calls issued so far and the lines of the
    bands file. *)
Record world := mk_world {
  w_playlists : list playlist;
  w_calls : list call;
  w_doc : list pystr;
}.

(** How a run stops early: [SystemExit] with its message, a [ValueError]
    (from [range] with step 0), or the fuel of a [while True] loop ran out. *)
Inductive exit := SystemExit (msg : pystr) | ValueError | OutOfFuel.

Definition M (A : Type) : Type := world -> (exit + A) * world.

Definition ret {A} (x : A) : M A := fun w => (inr x, w).
Definition bind {A B} (m : M A) (k : A -> M B) : M B :=
  fun w => match m w with (inl e, w') => (inl e, w') | (inr x, w') => k x w' end.
Definition throw {A} (e : exit) : M A := fun w => (inl e, w).

Notation "'let!' x ':=' m 'in' k" := (bind m (fun x => k))
  (at level 200, x name, m at level 100, k at level 200).

Definition issue (c : call) : M unit :=
  fun w => (inr tt, mk_world (w_playlists w) (w_calls w ++ [c]) (w_doc w)).

Definition get_playlists : M (list playlist) := fun w => (inr (w_playlists w), w).
Definition get_doc : M (list pystr) := fun w => (inr (w_doc w), w).
Definition put_doc (d : list pystr) : M unit :=
  fun w => (inr tt, mk_world (w_playlists w) (w_calls w) d).

(** Python's [s[i:j]] on a list, with its index normalisation. *)
Definition py_index (len i : Z) : Z :=
  if (i <? 0)%Z then Z.max 0 (i + len) else Z.min i len.

Definition py_slice {A} (l : list A) (i j : Z) : list A :=
  let len := Z.of_nat (length l) in
  let i' := py_index len i in
  let j' := py_index len j in
  firstn (Z.to_nat (j' - i')) (skipn (Z.to_nat i') l).

(** [range(start, stop, step)]; [ValueError] when [step] is 0. *)
Fixpoint range_go (fuel : nat) (i stop step : Z) : list Z :=
  match fuel with
  | O => []
  | S f =>
      if (if (0 <? step)%Z then (i <? stop)%Z else (stop <? i)%Z)
      then i :: range_go f (i + step) stop step
      else []
  end.

Definition py_range (start stop step : Z) : option (list Z) :=
  if (step =? 0)%Z then None
  else Some (range_go (Z.to_nat (Z.abs (stop - start))) start stop step).

Fixpoint for_each {A} (l : list A) (body : A -> M unit) : M unit :=
  match l with
  | [] => ret tt
  | x :: t => let! _ := body x in for_each t body
  end.

(** [replace_playlist_tracks] *)
Definition replace_playlist_tracks (playlist_id : pystr) (uris : list pystr)
    (chunk_size : Z) : M unit :=
  let! _ := issue (ReplaceItems playlist_id (py_slice uris 0 100)) in
  match py_range 100 (Z.of_nat (length uris)) chunk_size with
  | None => throw ValueError
  | Some idx =>
      for_each idx (fun i =>
        issue (AddItems playlist_id (py_slice uris i (i + chunk_size))))
  end.

(** [add_tracks_in_chunks] *)
Definition add_tracks_in_chunks (playlist_id : pystr) (uris : list pystr)
    (chunk_size : Z) : M unit :=
  match py_range 0 (Z.of_nat (length uris)) chunk_size with
  | None => throw ValueError
  | Some idx =>
      for_each idx (fun i =>
        issue (AddItems playlist_id (py_slice uris i (i + chunk_size))))
  end.

(** [list(dict.fromkeys(l))]: the keys in first-insertion order. *)
Definition dict_fromkeys (l : list pystr) : list pystr :=
  fold_left (fun keys x => if bool_decide (x ∈ keys) then keys else keys ++ [x]) l [].

(** The aggregation of [main]: [all_track_uris.extend(artist_tracks)] for
    each matched band in order, then [list(dict.fromkeys(all_track_uris))]. *)
Definition aggregate (per_artist : list (list pystr)) : list pystr :=
  dict_fromkeys (fold_left (fun all ts => all ++ ts) per_artist []).

(** The order the spec asks of the deduplicated tracks: the identifier at
    each position [i] of [l] that no position before [i] holds, by position. *)
Definition first_occurrences (l : list pystr) : list pystr :=
  omap (fun i => match l !! i with
                 | Some x => if decide (x ∈ take i l) then None else Some x
                 | None => None
                 end) (seq 0 (length l)).

(* ------------------------------------------------------------------ *)
(** ** Markdown catalog parser and annotator *)

Fixpoint span_space (s : pystr) : pystr * pystr :=
  match s with
  | c :: t => if is_space c then let '(ws, r) := span_space t in (c :: ws, r) else ([], s)
  | [] => ([], [])
  end.

(** [re.match(r"^(\s*M\s+)(.+?)\s*$", line)] for the marker [M] (["-"] for a
    bullet, ["#"] for a heading), on a line of [splitlines()] (no line
    break inside): the prefix group and the lazy group.  After the greedy
    [\s+] the lazy group is the rest without its trailing white space; when
    nothing but white space follows the marker, [\s+] gives its last
    character back to the group. *)
Definition match_marker_line (marker : N) (line : pystr) : option (pystr * pystr) :=
  let '(lead, r1) := span_space line in
  match r1 with
  | m :: r2 =>
      if (m =? marker)%N then
        let '(ws, r3) := span_space r2 in
        match ws with
        | [] => None
        | _ =>
            match rstrip r3 with
            | [] =>
                match ws with
                | [_] => None
                | _ => Some (lead ++ [m] ++ removelast ws, [List.last ws SPACE])
                end
            | name => Some (lead ++ [m] ++ ws, name)
            end
        end
      else None
  | [] => None
  end.

Definition ends_with (s suf : pystr) : bool :=
  bool_decide (suf `suffix_of` s).

(** [strip_status_hints] *)
Definition strip_status_hints (name not_found_hint skipped_hint : pystr) : pystr :=
  let fix go (hints : list pystr) :=
    match hints with
    | [] => name
    | hint :: rest =>
        if bool_decide (hint <> []) && ends_with name (SPACE :: hint) then
          rstrip (py_slice name 0 (- Z.of_nat (length hint) - 1))
        else if bool_decide (hint <> []) && ends_with name hint then
          rstrip (py_slice name 0 (- Z.of_nat (length hint)))
        else go rest
    end in
  go [not_found_hint; skipped_hint].

Definition is_ascii_alnum (c : N) : bool :=
  ((48 <=? c) && (c <=? 57))%N || ((65 <=? c) && (c <=? 90))%N
  || ((97 <=? c) && (c <=? 122))%N.

Fixpoint span_alnum (s : pystr) : pystr * pystr :=
  match s with
  | c :: t => if is_ascii_alnum c then let '(a, r) := span_alnum t in (c :: a, r) else ([], s)
  | [] => ([], [])
  end.

Definition ARTIST_LINK : pystr := str "[spotify](https://open.spotify.com/artist/".

(** A match of [\s*\[spotify\]\(https://open\.spotify\.com/artist/[a-zA-Z0-9]+\)]
    at the start of [s]: the text after it. *)
Definition match_artist_link (s : pystr) : option pystr :=
  let '(_, r1) := span_space s in
  if bool_decide (take (length ARTIST_LINK) r1 = ARTIST_LINK) then
    let '(id, r2) := span_alnum (drop (length ARTIST_LINK) r1) in
    match id, r2 with
    | _ :: _, c :: r3 => if (c =? 41)%N then Some r3 else None
    | _, _ => None
    end
  else None.

(** [re.sub(<artist link pattern>, "", s)]: the left-to-right scan; every
    match consumes at least one character, so [length s] steps suffice. *)
Fixpoint sub_artist_link_go (fuel : nat) (s : pystr) : pystr :=
  match fuel with
  | O => s
  | S f =>
      match s with
      | [] => []
      | c :: t =>
          match match_artist_link s with
          | Some rest => sub_artist_link_go f rest
          | None => c :: sub_artist_link_go f t
          end
      end
  end.

(** [strip_spotify_link] *)
Definition strip_spotify_link (name : pystr) : pystr :=
  rstrip (sub_artist_link_go (length name) name).

Definition is_ascii_digit (c : N) : bool := ((48 <=? c) && (c <=? 57))%N.

Fixpoint span_digits (s : pystr) : pystr * pystr :=
  match s with
  | c :: t => if is_ascii_digit c then let '(a, r) := span_digits t in (c :: a, r) else ([], s)
  | [] => ([], [])
  end.

(** [\s*\((\d+)\)\s*$] at the start of [s]: the digits group.  Only the
    ASCII digits of [\d] are modelled. *)
Definition match_count_suffix (s : pystr) : option pystr :=
  let '(_, r1) := span_space s in
  match r1 with
  | c :: r2 =>
      if (c =? 40)%N then
        let '(ds, r3) := span_digits r2 in
        match ds, r3 with
        | _ :: _, c' :: r4 => if (c' =? 41)%N && all_space r4 then Some ds else None
        | _, _ => None
        end
      else None
  | [] => None
  end.

(** The lazy [(.+?)] of [^(.+?)\s*\((\d+)\)\s*$]: the shortest non-empty
    prefix after which the suffix matches. *)
Fixpoint match_count_lazy (acc s : pystr) : option (pystr * pystr) :=
  match s with
  | [] => None
  | c :: t =>
      match match_count_suffix t with
      | Some ds => Some (acc ++ [c], ds)
      | None => match_count_lazy (acc ++ [c]) t
      end
  end.

Definition digits_value (ds : pystr) : Z :=
  fold_left (fun v d => 10 * v + Z.of_N (d - 48))%Z ds 0%Z.

(** [parse_band_entry] *)
Definition parse_band_entry (name : pystr) : pystr * option Z :=
  match match_count_lazy [] name with
  | Some (g1, ds) => (rstrip g1, Some (digits_value ds))
  | None => (name, None)
  end.

(** [load_bands] on the lines of the bands file: the bands in document
    order, the names marked skipped, the track-count overrides. *)
Definition load_bands (lines : list pystr) (not_found_hint skipped_hint : pystr)
    : list pystr * gset pystr * gmap pystr Z :=
  fold_left (fun '(bands, skipped, overrides) line =>
    match match_marker_line HYPHEN line with
    | None => (bands, skipped, overrides)
    | Some (_, raw_name) =>
        let base_name := strip_status_hints raw_name not_found_hint skipped_hint in
        let base_name := strip_spotify_link base_name in
        let '(base_name, override) := parse_band_entry base_name in
        let overrides := match override with
                         | Some n => <[base_name := n]> overrides
                         | None => overrides
                         end in
        let skipped := if bool_decide (skipped_hint <> []) && ends_with raw_name skipped_hint
                       then {[base_name]} ∪ skipped else skipped in
        (bands ++ [base_name], skipped, overrides)
    end) lines ([], ∅, ∅).

(** [format_hint] *)
Definition format_hint (hint : pystr) : pystr :=
  if bool_decide (hint = []) then [] else SPACE :: lstrip hint.

(** One line of [update_bands_hints]. *)
Definition update_line (not_found_exact intentionally_skipped : gset pystr)
    (not_found_hint skipped_hint : pystr) (urls : gmap pystr pystr) (line : pystr) : pystr :=
  match match_marker_line HYPHEN line with
  | None => line
  | Some (prefix, raw_name) =>
      let base_name := strip_status_hints raw_name not_found_hint skipped_hint in
      let base_name := strip_spotify_link base_name in
      if bool_decide (base_name ∈ intentionally_skipped) then
        prefix ++ base_name ++ format_hint skipped_hint
      else if bool_decide (base_name ∈ not_found_exact) then
        prefix ++ base_name ++ format_hint not_found_hint
      else
        let link := match urls !! base_name with
                    | Some u => str " [spotify](" ++ u ++ str ")"
                    | None => []
                    end in
        prefix ++ base_name ++ link
  end.

(** [update_bands_hints]: the file is rewritten line by line. *)
Definition update_bands_hints (not_found_exact intentionally_skipped : gset pystr)
    (not_found_hint skipped_hint : pystr) (urls : gmap pystr pystr) : M unit :=
  let! lines := get_doc in
  put_doc (map (update_line not_found_exact intentionally_skipped
                  not_found_hint skipped_hint urls) lines).

Definition DEFAULT_NOT_FOUND_HINT : pystr := str "_(not added: no exact Spotify artist match)_".
Definition DEFAULT_SKIPPED_HINT : pystr := str "_(not added: intentionally skipped)_".

(* ------------------------------------------------------------------ *)
(** ** The run *)

Definition HASH : N := 35.

(** The title of [derive_playlist_name]: the first heading line. *)
Fixpoint first_heading (lines : list pystr) : pystr :=
  match lines with
  | [] => []
  | line :: rest =>
      match match_marker_line HASH line with
      | Some (_, g) => strip g
      | None => first_heading rest
      end
  end.

(** [derive_playlist_name], with the stem of the bands file. *)
Definition derive_playlist_name (lines : list pystr) (stem : pystr) : pystr :=
  let title := first_heading lines in
  if bool_decide (title = []) then stem ++ str " - Top 5 je Band"
  else title ++ str " - Top 5 je Band".

Definition is_word_char (c : N) : bool := is_ascii_alnum c || (c =? 95)%N.

Definition PLAYLIST_LINK : pystr := str "](https://open.spotify.com/playlist/".

Fixpoint any_suffix (f : pystr -> bool) (l : pystr) : bool :=
  f l || match l with [] => false | _ :: t => any_suffix f t end.

(** [^\[.*\]\(https://open\.spotify\.com/playlist/\w+\)$] on a stripped
    line; [\w] is taken on ASCII. *)
Definition is_playlist_link_line (s : pystr) : bool :=
  match s with
  | c :: mid_close =>
      (c =? 91)%N &&
      match rev mid_close with
      | c' :: rmid =>
          (c' =? 41)%N &&
          any_suffix (fun t =>
            bool_decide (take (length PLAYLIST_LINK) t = PLAYLIST_LINK) &&
            let w := drop (length PLAYLIST_LINK) t in
            bool_decide (w <> []) && forallb is_word_char w) (rev rmid)
      | [] => false
      end
  | [] => false
  end.

(** [append_playlist_url] *)
Definition append_playlist_url (playlist_url : pystr) : M unit :=
  let! lines := get_doc in
  let link := str "[Spotify Playlist](" ++ playlist_url ++ str ")" in
  match list_find (fun l => is_playlist_link_line (strip l) = true) lines with
  | Some (i, _) => put_doc (<[i := link]> lines)
  | None => put_doc (lines ++ [[]; link])
  end.

(** [current_user_playlists(limit, offset)]: a page of the listing. *)
Definition current_user_playlists (limit offset : Z) : M (list playlist) :=
  let! _ := issue (CurrentUserPlaylists limit offset) in
  let! pls := get_playlists in
  ret (py_slice pls offset (offset + limit)).

(** [current_user_unfollow_playlist]: the playlist leaves the listing. *)
Definition unfollow_playlist (playlist_id : pystr) : M unit :=
  fun w => (inr tt, mk_world
    (filter (fun p => pl_id p <> playlist_id) (w_playlists w))
    (w_calls w ++ [UnfollowPlaylist playlist_id]) (w_doc w)).

(** [normalize_artist_query] *)
Definition normalize_artist_query (name : pystr) (intentionally_skipped_bands : gset pystr)
    : pystr :=
  if bool_decide (name ∈ intentionally_skipped_bands) then [] else name.

(** The loop of [top_tracks_for_artist]. *)
Fixpoint collect_uris (tracks : list (option pystr)) (uris : list pystr) (track_limit : Z)
    : list pystr :=
  match tracks with
  | [] => uris
  | t :: rest =>
      let uris := match t with
                  | Some uri => if bool_decide (uri <> [] /\ uri ∉ uris) then uris ++ [uri] else uris
                  | None => uris
                  end in
      if (track_limit <=? Z.of_nat (length uris))%Z then uris
      else collect_uris rest uris track_limit
  end.

(** The scan of [pick_best_artist]: the first item whose lowered name is
    the lowered query. *)
Fixpoint first_exact (lower : pystr -> pystr) (lowered_query : pystr) (items : list artist)
    : option artist :=
  match items with
  | [] => None
  | a :: rest =>
      if bool_decide (lower (ar_name a) = lowered_query) then Some a
      else first_exact lower lowered_query rest
  end.

(** The state of the band loop of [main]. *)
Record loop_state := mk_loop_state {
  ls_all_track_uris : list pystr;
  ls_unresolved : list pystr;
  ls_not_found_exact : gset pystr;
  ls_intentionally_skipped : gset pystr;
  ls_artist_urls : gmap pystr pystr;
}.

Definition loop_init : loop_state := mk_loop_state [] [] ∅ ∅ ∅.

(** The settings [main] reads from the environment, after parsing. *)
Record config := mk_config {
  cfg_bands_file_exists : bool;
  cfg_stem : pystr;                (* [bands_file.stem] *)
  cfg_not_found_hint : pystr;      (* before [.lstrip()] *)
  cfg_skipped_hint : pystr;
  cfg_track_limit : Z;
  cfg_search_limit : Z;
  cfg_chunk_size : Z;
  cfg_cover_image : bool;          (* [PLAYLIST_COVER_IMAGE] set *)
  cfg_cover_exists : bool;
  cfg_cover_small : bool;          (* at most 256 KB *)
  cfg_shuffle : bool;
  cfg_dry_run : bool;
  cfg_force_recreate : bool;
  cfg_description : pystr;
}.

(** How a run that returns normally ended. *)
Inductive outcome := DryRun | Unchanged | Updated | Created.

Section Run.
Variable lower : pystr -> pystr.
Variable sp : api.
(** [random.shuffle]'s source: the value of its [k]-th [randbelow(n)]. *)
Variable randbelow : nat -> nat -> nat.

Definition normalize := normalize_playlist_name lower.

(** [pick_best_artist] *)
Definition pick_best_artist (query : pystr) (search_limit : Z) : M (option artist) :=
  if bool_decide (query = []) then ret None else
  let q := str "artist:" ++ query in
  let! _ := issue (Search q search_limit) in
  let items := api_search sp q search_limit in
  if bool_decide (items = []) then ret None else
  ret (first_exact lower (lower query) items).

(** [top_tracks_for_artist] *)
Definition top_tracks_for_artist (artist_id : pystr) (track_limit : Z) : M (list pystr) :=
  let! _ := issue (ArtistTopTracks artist_id) in
  ret (collect_uris (api_top_tracks sp artist_id) [] track_limit).

(** One iteration of the band loop of [main]. *)
Definition band_step (intentionally_skipped_bands : gset pystr)
    (track_overrides : gmap pystr Z) (track_limit search_limit : Z)
    (st : loop_state) (band : pystr) : M loop_state :=
  let query := normalize_artist_query band intentionally_skipped_bands in
  if bool_decide (query = []) then
    ret (mk_loop_state (ls_all_track_uris st) (ls_unresolved st ++ [band])
           (ls_not_found_exact st) ({[band]} ∪ ls_intentionally_skipped st)
           (ls_artist_urls st))
  else
  let! artist := pick_best_artist query search_limit in
  match artist with
  | None =>
      ret (mk_loop_state (ls_all_track_uris st) (ls_unresolved st ++ [band])
             ({[band]} ∪ ls_not_found_exact st) (ls_intentionally_skipped st)
             (ls_artist_urls st))
  | Some a =>
      let urls := if bool_decide (ar_url a = []) then ls_artist_urls st
                  else <[band := ar_url a]> (ls_artist_urls st) in
      let band_track_limit := match track_overrides !! band with
                              | Some n => n | None => track_limit end in
      let! artist_tracks := top_tracks_for_artist (ar_id a) band_track_limit in
      if bool_decide (artist_tracks = []) then
        ret (mk_loop_state (ls_all_track_uris st) (ls_unresolved st ++ [band])
               (ls_not_found_exact st) (ls_intentionally_skipped st) urls)
      else
        ret (mk_loop_state (ls_all_track_uris st ++ artist_tracks) (ls_unresolved st)
               (ls_not_found_exact st) (ls_intentionally_skipped st) urls)
  end.

Fixpoint band_loop (intentionally_skipped_bands : gset pystr)
    (track_overrides : gmap pystr Z) (track_limit search_limit : Z)
    (bands : list pystr) (st : loop_state) : M loop_state :=
  match bands with
  | [] => ret st
  | band :: rest =>
      let! st := band_step intentionally_skipped_bands track_overrides
                   track_limit search_limit st band in
      band_loop intentionally_skipped_bands track_overrides track_limit search_limit rest st
  end.

(** The inner loop of [delete_existing_playlists] over one page. *)
Fixpoint delete_items (user_id target : pystr) (items : list playlist)
    (seen : gset pystr) (found : bool) (deleted : Z) : M (gset pystr * bool * Z) :=
  match items with
  | [] => ret (seen, found, deleted)
  | p :: rest =>
      if bool_decide (pl_id p <> []) && bool_decide (normalize (pl_name p) = target)
         && bool_decide (pl_owner p = user_id) && bool_decide (pl_id p ∉ seen) then
        let! _ := unfollow_playlist (pl_id p) in
        delete_items user_id target rest ({[pl_id p]} ∪ seen) true (deleted + 1)
      else delete_items user_id target rest seen found deleted
  end.

(** One pass of [delete_existing_playlists]: the paginated scan. *)
Fixpoint delete_scan (fuel : nat) (user_id target : pystr) (offset : Z)
    (seen : gset pystr) (found : bool) (deleted : Z) : M (gset pystr * bool * Z) :=
  match fuel with
  | O => throw OutOfFuel
  | S f =>
      let! items := current_user_playlists 50 offset in
      if bool_decide (items = []) then ret (seen, found, deleted) else
      let! r := delete_items user_id target items seen found deleted in
      let '(seen, found, deleted) := r in
      if (Z.of_nat (length items) <? 50)%Z then ret (seen, found, deleted)
      else delete_scan f user_id target (offset + 50) seen found deleted
  end.

(** The outer [while True] of [delete_existing_playlists], on [n]. *)
Fixpoint delete_passes (fuel : nat) (user_id target : pystr) (n : nat)
    (seen : gset pystr) (deleted : Z) : M Z :=
  match n with
  | O => throw OutOfFuel
  | S n' =>
      let! r := delete_scan fuel user_id target 0 seen false deleted in
      let '(seen, found_in_pass, deleted) := r in
      if found_in_pass then delete_passes fuel user_id target n' seen deleted
      else ret deleted
  end.

(** [delete_existing_playlists]; each [while True] runs on [fuel]. *)
Definition delete_existing_playlists (fuel : nat) (user_id name : pystr) : M Z :=
  delete_passes fuel user_id (normalize name) fuel ∅ 0%Z.

(** [find_existing_playlist] *)
Fixpoint find_existing_go (fuel : nat) (user_id target : pystr) (offset : Z)
    : M (option playlist) :=
  match fuel with
  | O => throw OutOfFuel
  | S f =>
      let! items := current_user_playlists 50 offset in
      if bool_decide (items = []) then ret None else
      match list_find (fun p => pl_owner p = user_id /\ normalize (pl_name p) = target) items with
      | Some (_, p) => ret (Some p)
      | None =>
          if (Z.of_nat (length items) <? 50)%Z then ret None
          else find_existing_go f user_id target (offset + 50)
      end
  end.

Definition find_existing_playlist (fuel : nat) (user_id name : pystr) : M (option playlist) :=
  find_existing_go fuel user_id (normalize name) 0.

(** [get_playlist_track_uris]; the pages after the first come from
    [sp.next]. *)
Definition get_playlist_track_uris (playlist_id : pystr) : M (list pystr) :=
  let! _ := issue (PlaylistTracks playlist_id) in
  ret (concat (map (fun page =>
         omap (fun t => match t with
                        | Some u => if bool_decide (u = []) then None else Some u
                        | None => None end) page)
       (api_playlist_tracks sp playlist_id))).

(** [create_playlist]: the new playlist heads the listing. *)
Definition create_playlist (user_id name description : pystr) : M pystr :=
  let pid := api_new_playlist_id sp in
  fun w => (inr pid, mk_world (mk_playlist pid name user_id :: w_playlists w)
                       (w_calls w ++ [CreatePlaylist user_id name true description])
                       (w_doc w)).

(** [upload_cover_image] *)
Definition upload_cover_image (cfg : config) (playlist_id : pystr) : M unit :=
  if cfg_cover_small cfg then issue (UploadCover playlist_id) else ret tt.

Definition maybe_upload_cover (cfg : config) (playlist_id : pystr) : M unit :=
  if cfg_cover_image cfg then upload_cover_image cfg playlist_id else ret tt.

(** [random.shuffle] (Fisher-Yates from the end). *)
Definition swap (x : list pystr) (i j : nat) : list pystr :=
  match x !! i, x !! j with
  | Some a, Some b => <[j := a]> (<[i := b]> x)
  | _, _ => x
  end.

Fixpoint shuffle_go (k : nat) (idx : list nat) (x : list pystr) : list pystr :=
  match idx with
  | [] => x
  | i :: rest => shuffle_go (S k) rest (swap x i (randbelow k (S i)))
  end.

Definition py_shuffle (x : list pystr) : list pystr :=
  shuffle_go 0 (rev (seq 1 (length x - 1))) x.

Definition set_eq (l1 l2 : list pystr) : bool :=
  bool_decide (list_to_set l1 = (list_to_set l2 : gset pystr)).

Definition playlist_url_of (playlist_id : pystr) : pystr :=
  str "https://open.spotify.com/playlist/" ++ playlist_id.

(** The part of [main] after the band loop: dry run, annotation of the
    bands file, then the reconciliation with the existing playlist. *)
Definition main_reconcile (cfg : config) (fuel : nat) (user_id playlist_name : pystr)
    (st : loop_state) (deduped : list pystr) : M outcome :=
  let not_found_hint := lstrip (cfg_not_found_hint cfg) in
  let skipped_hint := lstrip (cfg_skipped_hint cfg) in
  let chunk_size := cfg_chunk_size cfg in
  if cfg_dry_run cfg then ret DryRun else
  let! _ := update_bands_hints (ls_not_found_exact st) (ls_intentionally_skipped st)
              not_found_hint skipped_hint (ls_artist_urls st) in
  if bool_decide (deduped = []) then
    throw (SystemExit (str "No tracks found. Playlist was not created.")) else
  let! existing := find_existing_playlist fuel user_id playlist_name in
  let create :=
    let! playlist_id := create_playlist user_id playlist_name (cfg_description cfg) in
    let! _ := add_tracks_in_chunks playlist_id deduped chunk_size in
    let! _ := maybe_upload_cover cfg playlist_id in
    let! _ := append_playlist_url (playlist_url_of playlist_id) in
    ret Created in
  match existing with
  | Some p =>
      if negb (cfg_force_recreate cfg) then
        let! existing_uris := get_playlist_track_uris (pl_id p) in
        let playlist_id := pl_id p in
        if set_eq existing_uris deduped then
          let! _ := maybe_upload_cover cfg playlist_id in
          let! _ := append_playlist_url (playlist_url_of playlist_id) in
          ret Unchanged
        else
          let! _ := replace_playlist_tracks playlist_id deduped chunk_size in
          let! _ := maybe_upload_cover cfg playlist_id in
          let! _ := append_playlist_url (playlist_url_of playlist_id) in
          ret Updated
      else
        let! _ := delete_existing_playlists fuel user_id playlist_name in
        create
  | None => create
  end.

(** [main], from the checks of its settings on. *)
Definition main (cfg : config) (fuel : nat) : M outcome :=
  let not_found_hint := lstrip (cfg_not_found_hint cfg) in
  let skipped_hint := lstrip (cfg_skipped_hint cfg) in
  let track_limit := cfg_track_limit cfg in
  let search_limit := cfg_search_limit cfg in
  let chunk_size := cfg_chunk_size cfg in
  if negb (cfg_bands_file_exists cfg) then throw (SystemExit (str "Bands file not found")) else
  if (track_limit <=? 0)%Z then throw (SystemExit (str "TOP_TRACKS_PER_ARTIST must be > 0")) else
  if (search_limit <=? 0)%Z then throw (SystemExit (str "SPOTIFY_SEARCH_LIMIT must be > 0")) else
  if (chunk_size <=? 0)%Z then throw (SystemExit (str "SPOTIFY_ADD_CHUNK_SIZE must be > 0")) else
  if cfg_cover_image cfg && negb (cfg_cover_exists cfg) then
    throw (SystemExit (str "Cover image not found")) else
  let! doc := get_doc in
  let playlist_name := derive_playlist_name doc (cfg_stem cfg) in
  let! _ := issue CurrentUser in
  let user_id := api_user_id sp in
  let '(bands, intentionally_skipped_bands, track_overrides) :=
    load_bands doc not_found_hint skipped_hint in
  let! st := band_loop intentionally_skipped_bands track_overrides track_limit search_limit
               bands loop_init in
  let deduped := dict_fromkeys (ls_all_track_uris st) in
  let deduped := if cfg_shuffle cfg then py_shuffle deduped else deduped in
  main_reconcile cfg fuel user_id playlist_name st deduped.

End Run.

(** Settings as [main] reads them when no variable overrides a default. *)
Definition default_config (stem : pystr) : config :=
  mk_config true stem DEFAULT_NOT_FOUND_HINT DEFAULT_SKIPPED_HINT 5 5 100
    false false false false false false [].

(** A catalog in which every search comes back empty. *)
Definition empty_catalog (user_id : pystr) : api :=
  mk_api user_id (fun _ _ => []) (fun _ => []) (fun _ => []) (str "new").

(* ------------------------------------------------------------------ *)
(** ** Frames of computations *)

(** [m] only appends calls satisfying [P] to the trace. *)
Definition calls_in (P : call -> Prop) {A} (m : M A) : Prop :=
  forall w, exists cs, w_calls (snd (m w)) = w_calls w ++ cs /\ Forall P cs.

(** [m] leaves the playlist listing alone. *)
Definition keeps_playlists {A} (m : M A) : Prop :=
  forall w, w_playlists (snd (m w)) = w_playlists w.

Definition readonly_call (c : call) : bool :=
  match c with
  | CurrentUser | Search _ _ | ArtistTopTracks _ | CurrentUserPlaylists _ _
  | PlaylistTracks _ => true
  | _ => false
  end.

Definition unfollowed (cs : list call) : list pystr :=
  omap (fun c => match c with UnfollowPlaylist pid => Some pid | _ => None end) cs.

(** The result of [m], and the listing it leaves, depend on the listing
    only (not on the trace or the bands file). *)
Definition pl_det {A} (m : M A) : Prop :=
  forall w w', w_playlists w = w_playlists w' ->
    fst (m w) = fst (m w') /\ w_playlists (snd (m w)) = w_playlists (snd (m w')).

(** Every catalog search of a run is for a band outside [skipped]. *)
Definition searched_unskipped (skipped : gset pystr) (c : call) : Prop :=
  forall q l, c = Search q l -> exists band, q = str "artist:" ++ band /\ band ∉ skipped.

(** A playlist [delete_existing_playlists] is after: an id, the target
    name once normalized, owned by the user. *)
Definition owned_match (lower : pystr -> pystr) (user_id target : pystr) (p : playlist) : Prop :=
  pl_id p <> [] /\ normalize lower (pl_name p) = target /\ pl_owner p = user_id.

(** The invariant of a deletion run started in [w0]: the ids in [seen] are
    exactly those unfollowed so far, once each, each the id of a matching
    playlist of [w0]; the listing is [w0]'s without them. *)
Definition delete_inv (lower : pystr -> pystr) (user_id target : pystr) (w0 w : world)
    (seen : gset pystr) : Prop :=
  w_playlists w = filter (fun p => pl_id p ∉ seen) (w_playlists w0) /\
  w_doc w = w_doc w0 /\
  exists cs, w_calls w = w_calls w0 ++ cs /\
    Forall (fun c => (exists l o, c = CurrentUserPlaylists l o) \/
                     exists pid, c = UnfollowPlaylist pid) cs /\
    NoDup (unfollowed cs) /\
    (forall pid, pid ∈ seen <-> pid ∈ unfollowed cs) /\
    (forall pid, pid ∈ unfollowed cs ->
       exists p, p ∈ w_playlists w0 /\ owned_match lower user_id target p /\ pl_id p = pid).

(** The ids in the listing. *)
Definition playlist_ids (w : world) : gset pystr := list_to_set (pl_id <$> w_playlists w).

(** The settings pass the checks at the start of [main]. *)
Definition settings_pass (cfg : config) : Prop :=
  cfg_bands_file_exists cfg = true /\ (0 < cfg_track_limit cfg)%Z /\
  (0 < cfg_search_limit cfg)%Z /\ (0 < cfg_chunk_size cfg)%Z /\
  (cfg_cover_image cfg = true -> cfg_cover_exists cfg = true).

(** The desired track list [main] computes from the band loop's state. *)
Definition desired_tracks (randbelow : nat -> nat -> nat) (cfg : config) (st : loop_state)
    : list pystr :=
  if cfg_shuffle cfg then py_shuffle randbelow (dict_fromkeys (ls_all_track_uris st))
  else dict_fromkeys (ls_all_track_uris st).

(* ------------------------------------------------------------------ *)
(** ** A festival line-up used as a concrete run *)

(** A catalog that knows one artist, Alpha, with two top tracks, and one
    earlier playlist [old] holding them in the other order. *)
Definition fest_catalog : api := mk_api (str "me")
  (fun q _ => if bool_decide (q = str "artist:Alpha")
              then [mk_artist (str "a1") (str "Alpha") (str "https://open.spotify.com/artist/a1")]
              else [])
  (fun a => if bool_decide (a = str "a1")
            then [Some (str "spotify:track:t1"); Some (str "spotify:track:t2")] else [])
  (fun pid => if bool_decide (pid = str "old")
              then [[Some (str "spotify:track:t2"); Some (str "spotify:track:t1")]] else [])
  (str "new").
(** The user's playlists: [old] and [dup] carry the target name up to
    dash glyph, case and spacing, [foreign] carries it but belongs to
    another user, [misc] is unrelated. *)
Definition fest_world : world := mk_world
  [mk_playlist (str "old") (str "Fest " ++ [EN_DASH] ++ str " Top 5 je Band") (str "me");
   mk_playlist (str "foreign") (str "Fest - Top 5 je Band") (str "other");
   mk_playlist (str "dup") (str "fest  -  top 5 JE band") (str "me");
   mk_playlist (str "misc") (str "Other") (str "me")]
  [] [str "# Fest"; str "- Alpha"].
(** The default settings with [FORCE_RECREATE] set. *)
Definition force_recreate_config := let c := default_config (str "bands") in
  mk_config (cfg_bands_file_exists c) (cfg_stem c) (cfg_not_found_hint c) (cfg_skipped_hint c)
    (cfg_track_limit c) (cfg_search_limit c) (cfg_chunk_size c) (cfg_cover_image c)
    (cfg_cover_exists c) (cfg_cover_small c) (cfg_shuffle c) (cfg_dry_run c) true (cfg_description c).

(** The default settings with [DRY_RUN] set. *)
Definition dry_run_config := let c := default_config (str "bands") in
  mk_config (cfg_bands_file_exists c) (cfg_stem c) (cfg_not_found_hint c) (cfg_skipped_hint c)
    (cfg_track_limit c) (cfg_search_limit c) (cfg_chunk_size c) (cfg_cover_image c)
    (cfg_cover_exists c) (cfg_cover_small c) (cfg_shuffle c) true (cfg_force_recreate c)
    (cfg_description c).

Definition fest_t1 : pystr := str "spotify:track:t1".
Definition fest_t2 : pystr := str "spotify:track:t2".
(** The state of the band loop after [fest_world]'s line-up. *)
Definition fest_state : loop_state :=
  mk_loop_state [fest_t1; fest_t2] [] ∅ ∅
    {[str "Alpha" := str "https://open.spotify.com/artist/a1"]}.
Definition fest_old : playlist :=
  mk_playlist (str "old") (str "Fest " ++ [EN_DASH] ++ str " Top 5 je Band") (str "me").

(** A line-up whose first entry carries the skipped hint. *)
Definition fest_skip_world : world :=
  mk_world [] [] [str "- Gamma" ++ [SPACE] ++ lstrip DEFAULT_SKIPPED_HINT; str "- Alpha"].

(* END OF DEFINITIONS *)

(* ================================================================== *)
(** * Proofs *)

(* ------------------------------------------------------------------ *)
(** ** Lemmas on the string primitives *)

Lemma is_space_hyphen : is_space HYPHEN = false.
Proof. reflexivity. Qed.

Lemma is_space_space : is_space SPACE = true.
Proof. reflexivity. Qed.

Lemma all_space_app x y : all_space (x ++ y) = all_space x && all_space y.
Proof. induction x as [|c x IH]; simpl; [done|]. rewrite IH. by destruct (is_space c). Qed.

Lemma all_space_rev x : all_space (rev x) = all_space x.
Proof.
  induction x as [|c x IH]; simpl; [done|].
  rewrite all_space_app, IH; simpl. by destruct (is_space c), (all_space x).
Qed.

Lemma lstrip_all_space x : all_space x = true -> lstrip x = [].
Proof.
  induction x as [|c x IH]; simpl; [done|].
  destruct (is_space c); simpl; [exact IH|discriminate].
Qed.

Lemma lstrip_app_space ws x : all_space ws = true -> lstrip (ws ++ x) = lstrip x.
Proof.
  induction ws as [|c ws IH]; simpl; [done|].
  destruct (is_space c) eqn:E; simpl; [exact IH|discriminate].
Qed.

Lemma lstrip_app x t :
  lstrip (x ++ t) = if all_space x then lstrip t else lstrip x ++ t.
Proof.
  induction x as [|c x IH]; simpl; [done|].
  destruct (is_space c); simpl; [exact IH|done].
Qed.

Lemma lstrip_decomp s : exists ws, all_space ws = true /\ s = ws ++ lstrip s.
Proof.
  induction s as [|c s IH]; simpl.
  - by exists [].
  - destruct (is_space c) eqn:E.
    + destruct IH as [ws [Hws Heq]]. exists (c :: ws). simpl.
      rewrite E, Hws. split; [done|]. by rewrite <- Heq.
    + by exists [].
Qed.

Lemma rstrip_app_space x t : all_space t = true -> rstrip (x ++ t) = rstrip x.
Proof.
  intros Ht. unfold rstrip. rewrite rev_app_distr, lstrip_app_space; [done|].
  by rewrite all_space_rev.
Qed.

Lemma rstrip_decomp s : exists ws, all_space ws = true /\ s = rstrip s ++ ws.
Proof.
  destruct (lstrip_decomp (rev s)) as [ws [Hws Heq]].
  exists (rev ws). rewrite all_space_rev. split; [done|].
  unfold rstrip. rewrite <- rev_app_distr, <- Heq. by rewrite rev_involutive.
Qed.

Lemma strip_decomp u :
  exists ws1 ws2, all_space ws1 = true /\ all_space ws2 = true /\
    u = ws1 ++ strip u ++ ws2.
Proof.
  destruct (lstrip_decomp u) as [ws1 [H1 E1]].
  destruct (rstrip_decomp (lstrip u)) as [ws2 [H2 E2]].
  exists ws1, ws2. split; [done|]. split; [done|].
  unfold strip. rewrite <- E2. exact E1.
Qed.

Lemma rstrip_lstrip_app_space x t :
  all_space t = true -> rstrip (lstrip (x ++ t)) = rstrip (lstrip x).
Proof.
  intros Ht. rewrite lstrip_app. destruct (all_space x) eqn:Ex.
  - by rewrite (lstrip_all_space t Ht), (lstrip_all_space x Ex).
  - by apply rstrip_app_space.
Qed.

Lemma in_lstrip d s : In d (lstrip s) -> In d s.
Proof.
  induction s as [|c s IH]; simpl; [done|].
  destruct (is_space c); [intros H; right; by apply IH|done].
Qed.

Lemma in_strip d s : In d (strip s) -> In d s.
Proof.
  unfold strip, rstrip. intros H.
  apply in_lstrip. apply in_rev. apply in_lstrip. by apply in_rev.
Qed.

(** *** The two substitutions *)

Lemma collapsed_sub_ws_go b y : collapsed b (sub_ws_go b y) = true.
Proof.
  revert b. induction y as [|c y IH]; intros b; simpl; [done|].
  destruct (is_space c) eqn:E.
  - destruct b; [apply IH|]. simpl. apply IH.
  - simpl. rewrite E. apply IH.
Qed.

Lemma sub_ws_go_true_spaces ws x :
  all_space ws = true -> sub_ws_go true (ws ++ x) = sub_ws_go true x.
Proof.
  induction ws as [|c ws IH]; simpl; [done|].
  destruct (is_space c); simpl; [exact IH|discriminate].
Qed.

Lemma sub_ws_go_false_true x :
  exists lead, all_space lead = true /\ sub_ws_go false x = lead ++ sub_ws_go true x.
Proof.
  destruct x as [|c x]; simpl; [by exists []|].
  destruct (is_space c).
  - by exists [SPACE].
  - by exists [].
Qed.

Lemma sub_ws_go_spaces ws x :
  all_space ws = true ->
  exists lead, all_space lead = true /\ sub_ws_go false (ws ++ x) = lead ++ sub_ws_go true x.
Proof.
  destruct ws as [|c ws]; simpl; [intros; apply sub_ws_go_false_true|].
  intros H. destruct (is_space c) eqn:E; [|discriminate].
  exists [SPACE]. split; [done|]. simpl. f_equal. by apply sub_ws_go_true_spaces.
Qed.

Lemma all_space_sub_ws_go b ws : all_space ws = true -> all_space (sub_ws_go b ws) = true.
Proof.
  revert b. induction ws as [|c ws IH]; intros b; simpl; [done|].
  destruct (is_space c) eqn:E; [|discriminate]. intros H.
  destruct b; [by apply IH|]. simpl. by apply IH.
Qed.

Lemma sub_ws_go_app b x :
  exists b', forall y, sub_ws_go b (x ++ y) = sub_ws_go b x ++ sub_ws_go b' y.
Proof.
  revert b. induction x as [|c x IH]; intros b; simpl; [by exists b|].
  destruct (is_space c).
  - destruct (IH true) as [b' Hb']. exists b'. intros y. destruct b; simpl; by rewrite Hb'.
  - destruct (IH false) as [b' Hb']. exists b'. intros y. by rewrite Hb'.
Qed.

Lemma sub_dash_go_app a p x :
  exists out a' p', forall y, sub_dash_go a p (x ++ y) = out ++ sub_dash_go a' p' y.
Proof.
  revert a p. induction x as [|c x IH]; intros a p; simpl.
  - by exists [], a, p.
  - destruct (c =? HYPHEN)%N.
    + destruct (IH true []) as (out & a' & p' & H).
      exists ([SPACE; HYPHEN; SPACE] ++ out), a', p'. intros y. rewrite H. by simpl.
    + destruct (is_space c).
      * destruct a.
        -- destruct (IH true []) as (out & a' & p' & H). exists out, a', p'. exact H.
        -- destruct (IH false (p ++ [c])) as (out & a' & p' & H). exists out, a', p'. exact H.
      * destruct (IH false []) as (out & a' & p' & H).
        exists (p ++ c :: out), a', p'. intros y. rewrite H. by rewrite <- app_assoc.
Qed.

Lemma hyphen_not_space c : is_space c = true -> (c =? HYPHEN)%N = false.
Proof.
  intros H. destruct (c =? HYPHEN)%N eqn:E; [|done].
  apply N.eqb_eq in E. subst. discriminate.
Qed.

Lemma sub_dash_go_spaces a p ws :
  all_space ws = true -> sub_dash_go a p ws = if a then [] else p ++ ws.
Proof.
  revert a p. induction ws as [|c ws IH]; intros a p; simpl.
  - destruct a; [done|]. by rewrite app_nil_r.
  - destruct (is_space c) eqn:E; [|discriminate]. intros H.
    rewrite (hyphen_not_space c E).
    destruct a; rewrite IH by done; [done|]. by rewrite <- app_assoc.
Qed.

Lemma sub_dash_go_pend_spaces p ws r :
  all_space ws = true -> sub_dash_go false p (ws ++ r) = sub_dash_go false (p ++ ws) r.
Proof.
  revert p. induction ws as [|c ws IH]; intros p; simpl.
  - by rewrite app_nil_r.
  - destruct (is_space c) eqn:E; [|discriminate]. intros H.
    rewrite (hyphen_not_space c E), IH by done. by rewrite <- app_assoc.
Qed.

Lemma lstrip_sub_dash_go_pend p r :
  all_space p = true -> lstrip (sub_dash_go false p r) = lstrip (sub_dash_go false [] r).
Proof.
  revert p. induction r as [|c r IH]; intros p Hp; simpl.
  - by rewrite lstrip_all_space.
  - destruct (c =? HYPHEN)%N; [done|].
    destruct (is_space c) eqn:E.
    + rewrite IH; [|by rewrite all_space_app, Hp; simpl; rewrite E].
      symmetry. apply IH. simpl. by rewrite E.
    + rewrite lstrip_app_space by done. simpl. by rewrite E.
Qed.

(** Re-running both substitutions on the output of [sub_dash] after
    [sub_ws] changes nothing: the second pass reads back exactly the
    chunks the first pass wrote. *)
Lemma sub_dash_resub w : forall pw a p,
  collapsed pw w = true ->
  p = [] \/ (p = [SPACE] /\ pw = true /\ a = false) ->
  sub_dash_go a [] (sub_ws_go a (sub_dash_go a p w)) = sub_dash_go a p w.
Proof.
  induction w as [|c w IH]; intros pw a p Hc Hp; simpl.
  - destruct Hp as [->|(-> & -> & ->)]; try destruct a; done.
  - simpl in Hc. destruct (c =? HYPHEN)%N eqn:Eh.
    + apply N.eqb_eq in Eh. subst c. simpl in Hc.
      assert (IH' := IH false true [] Hc (or_introl eq_refl)).
      destruct a; simpl; rewrite IH'; done.
    + destruct (is_space c) eqn:Es.
      * apply andb_prop in Hc as [Hc1 Hc]. apply andb_prop in Hc1 as [Hpw Hsp].
        destruct pw; [discriminate|].
        destruct Hp as [->|(_ & Habs & _)]; [|discriminate].
        destruct a.
        -- exact (IH true true [] Hc (or_introl eq_refl)).
        -- apply N.eqb_eq in Hsp. subst c. simpl.
           exact (IH true false [SPACE] Hc (or_intror (conj eq_refl (conj eq_refl eq_refl)))).
      * destruct Hp as [->|(-> & _ & ->)]; simpl.
        -- destruct a; simpl; rewrite Es; simpl; rewrite Eh, Es; f_equal;
             exact (IH false false [] Hc (or_introl eq_refl)).
        -- rewrite Es; simpl. rewrite Eh, Es. do 2 f_equal.
           exact (IH false false [] Hc (or_introl eq_refl)).
Qed.

Lemma subs_idem y : subs (subs y) = subs y.
Proof.
  unfold subs, sub_dash, sub_ws.
  apply (sub_dash_resub _ false false []); [apply collapsed_sub_ws_go|by left].
Qed.

Lemma subs_lead ws x :
  all_space ws = true -> lstrip (subs (ws ++ x)) = lstrip (subs x).
Proof.
  intros Hws. unfold subs, sub_dash, sub_ws.
  destruct (sub_ws_go_spaces ws x Hws) as [l1 [Hl1 ->]].
  destruct (sub_ws_go_spaces [] x eq_refl) as [l2 [Hl2 E2]]. simpl in E2. rewrite E2.
  rewrite !sub_dash_go_pend_spaces by done. simpl.
  rewrite !lstrip_sub_dash_go_pend by done. symmetry. by apply lstrip_sub_dash_go_pend.
Qed.

Lemma subs_trail x ws :
  all_space ws = true -> exists t, all_space t = true /\ subs (x ++ ws) = subs x ++ t.
Proof.
  intros Hws. unfold subs, sub_dash, sub_ws.
  destruct (sub_ws_go_app false x) as [b' Hb].
  rewrite (Hb ws).
  destruct (sub_dash_go_app false [] (sub_ws_go false x)) as (out & a' & p' & Hd).
  assert (Hx := Hd []). rewrite app_nil_r in Hx. rewrite Hx, Hd.
  rewrite sub_dash_go_spaces by (by apply all_space_sub_ws_go).
  simpl. destruct a'.
  - exists []. split; [done|]. by rewrite !app_nil_r.
  - exists (sub_ws_go b' ws). split; [by apply all_space_sub_ws_go|].
    by rewrite <- app_assoc.
Qed.

Lemma strip_subs_strip u : strip (subs (strip u)) = strip (subs u).
Proof.
  destruct (strip_decomp u) as (ws1 & ws2 & H1 & H2 & Hu).
  rewrite Hu at 2. remember (strip u) as m. clear Heqm Hu.
  unfold strip. rewrite subs_lead by done.
  destruct (subs_trail m ws2 H2) as (t & Ht & ->).
  by rewrite rstrip_lstrip_app_space.
Qed.

(** *** Character replacements and the characters of the result *)

Lemma normalize_playlist_name_unfold lower name :
  normalize_playlist_name lower name = strip (subs (replacements (lower name))).
Proof. reflexivity. Qed.

Lemma in_replacements d y :
  In d (replacements y) -> is_special d = false /\ (In d y \/ d = HYPHEN \/ d = APOS).
Proof.
  unfold replacements, replace_char. rewrite !map_map, in_map_iff.
  intros [c [<- Hc]].
  destruct (c =? EN_DASH)%N eqn:E1; [split; [done|right; by left]|].
  destruct (c =? EM_DASH)%N eqn:E2; [split; [done|right; by left]|].
  destruct (c =? MINUS_SIGN)%N eqn:E3; [split; [done|right; by left]|].
  destruct (c =? RSQUO)%N eqn:E4; [split; [done|right; by right]|].
  split; [|by left]. unfold is_special. by rewrite E1, E2, E3, E4.
Qed.

Lemma replacements_id y :
  (forall d, In d y -> is_special d = false) -> replacements y = y.
Proof.
  intros H. unfold replacements, replace_char. rewrite !map_map.
  rewrite <- (map_id y) at 2. apply map_ext_in. intros c Hc.
  specialize (H c Hc). unfold is_special in H.
  apply orb_false_elim in H as [H H4]. apply orb_false_elim in H as [H H3].
  apply orb_false_elim in H as [H1 H2]. by rewrite H1, H2, H3, H4.
Qed.

Lemma in_sub_ws_go d b w : In d (sub_ws_go b w) -> In d w \/ d = SPACE.
Proof.
  revert b. induction w as [|c w IH]; intros b; simpl; [done|].
  destruct (is_space c).
  - destruct b; [intros H; destruct (IH _ H); tauto|].
    intros [<-|H]; [tauto|]. destruct (IH _ H); tauto.
  - intros [<-|H]; [tauto|]. destruct (IH _ H); tauto.
Qed.

Lemma in_sub_dash_go d a p w :
  In d (sub_dash_go a p w) -> In d p \/ In d w \/ d = SPACE \/ d = HYPHEN.
Proof.
  revert a p. induction w as [|c w IH]; intros a p; simpl.
  - destruct a; [done|tauto].
  - destruct (c =? HYPHEN)%N.
    + intros [<-|[<-|[<-|H]]]; [tauto|tauto|tauto|].
      destruct (IH _ _ H) as [[]|[H'|H']]; tauto.
    + destruct (is_space c).
      * destruct a; intros H; destruct (IH _ _ H) as [Hp|[H'|H']]; try tauto;
          [destruct Hp|].
        apply in_app_or in Hp as [Hp|[<-|[]]]; tauto.
      * intros H. apply in_app_or in H as [Hp|[<-|H]]; [tauto|tauto|].
        destruct (IH _ _ H) as [[]|[H'|H']]; tauto.
Qed.

Lemma in_subs d y : In d (subs y) -> In d y \/ d = SPACE \/ d = HYPHEN.
Proof.
  unfold subs, sub_dash, sub_ws. intros H.
  destruct (in_sub_dash_go _ _ _ _ H) as [[]|[H'|H']]; [|by right].
  destruct (in_sub_ws_go _ _ _ H') as [H''|H'']; [by left|by right; left].
Qed.

(** *** White-space runs, hyphens and dash glyphs *)

Lemma space_not_special d : is_space d = true -> is_special d = false.
Proof.
  intros H. destruct (is_special d) eqn:E; [|done]. exfalso.
  unfold is_special in E. rewrite !orb_true_iff, !N.eqb_eq in E.
  destruct E as [[[->| ->]| ->]| ->]; discriminate.
Qed.

Lemma replacements_app a b : replacements (a ++ b) = replacements a ++ replacements b.
Proof. unfold replacements, replace_char. by rewrite !map_app. Qed.

Lemma replacements_spaces ws : all_space ws = true -> replacements ws = ws.
Proof.
  intros H. apply replacements_id. intros d Hd. apply space_not_special.
  induction ws as [|c ws IH]; [done|]. simpl in H. apply andb_prop in H as [H1 H2].
  destruct Hd as [<-|Hd]; [done|]. by apply IH.
Qed.

Lemma replacements_dash d :
  In d [HYPHEN; EN_DASH; EM_DASH; MINUS_SIGN] -> replacements [d] = [HYPHEN].
Proof. intros [<-|[<-|[<-|[<-|[]]]]]; reflexivity. Qed.

Lemma sub_ws_go_run b ws r :
  ws <> [] -> all_space ws = true ->
  sub_ws_go b (ws ++ r) = sub_ws_go b (SPACE :: r).
Proof.
  destruct ws as [|c ws]; [done|]. intros _ H. simpl in H.
  apply andb_prop in H as [Hc Hws]. simpl. rewrite Hc.
  by rewrite sub_ws_go_true_spaces.
Qed.

Lemma subs_run a ws r :
  ws <> [] -> all_space ws = true -> subs (a ++ ws ++ r) = subs (a ++ SPACE :: r).
Proof.
  intros Hne Hws. unfold subs, sub_ws.
  destruct (sub_ws_go_app false a) as [b' Hb]. rewrite !Hb.
  by rewrite sub_ws_go_run.
Qed.

Lemma sub_ws_go_lead_nonspace b ws c r :
  all_space ws = true -> is_space c = false ->
  exists lead, all_space lead = true /\
    sub_ws_go b (ws ++ c :: r) = lead ++ c :: sub_ws_go false r.
Proof.
  intros Hws Hc. destruct ws as [|d ws].
  - exists []. simpl. by rewrite Hc.
  - simpl in Hws. apply andb_prop in Hws as [Hd Hws]. simpl. rewrite Hd.
    rewrite sub_ws_go_true_spaces by done. simpl. rewrite Hc.
    destruct b; [by exists []|by exists [SPACE]].
Qed.

Lemma sub_dash_go_lead_hyphen a p lead r :
  all_space lead = true ->
  sub_dash_go a p (lead ++ HYPHEN :: r) = [SPACE; HYPHEN; SPACE] ++ sub_dash_go true [] r.
Proof.
  revert a p. induction lead as [|c lead IH]; intros a p H; simpl; [done|].
  simpl in H. apply andb_prop in H as [Hc H].
  rewrite (hyphen_not_space c Hc), Hc. destruct a; by apply IH.
Qed.

Lemma sub_dash_go_after_spaces lead r :
  all_space lead = true -> sub_dash_go true [] (lead ++ r) = sub_dash_go true [] r.
Proof.
  induction lead as [|c lead IH]; intros H; simpl; [done|].
  simpl in H. apply andb_prop in H as [Hc H].
  rewrite (hyphen_not_space c Hc), Hc. by apply IH.
Qed.

Lemma subs_hyphen_spaces a ws1 ws2 r :
  all_space ws1 = true -> all_space ws2 = true ->
  subs (a ++ ws1 ++ HYPHEN :: ws2 ++ r) = subs (a ++ HYPHEN :: r).
Proof.
  intros H1 H2. unfold subs, sub_ws, sub_dash.
  destruct (sub_ws_go_app false a) as [b' Hb]. rewrite !Hb.
  destruct (sub_ws_go_lead_nonspace b' ws1 HYPHEN (ws2 ++ r) H1 eq_refl)
    as (l1 & Hl1 & ->).
  destruct (sub_ws_go_lead_nonspace b' [] HYPHEN r eq_refl eq_refl)
    as (l0 & Hl0 & E0). simpl app in E0. rewrite E0.
  destruct (sub_ws_go_spaces ws2 r H2) as (l2 & Hl2 & ->).
  destruct (sub_ws_go_false_true r) as (l3 & Hl3 & ->).
  destruct (sub_dash_go_app false [] (sub_ws_go false a)) as (out & a' & p' & Hd).
  rewrite !Hd. f_equal.
  rewrite !sub_dash_go_lead_hyphen by done. f_equal.
  by rewrite !sub_dash_go_after_spaces.
Qed.

Lemma subs_strip_around ws1 x ws2 :
  all_space ws1 = true -> all_space ws2 = true ->
  strip (subs (ws1 ++ x ++ ws2)) = strip (subs x).
Proof.
  intros H1 H2. unfold strip. rewrite subs_lead by done.
  destruct (subs_trail x ws2 H2) as (t & Ht & ->).
  by rewrite rstrip_lstrip_app_space.
Qed.

Lemma Forall_all_space ws :
  all_space ws = true ->
  Forall (fun d => is_space d = true \/ In d [HYPHEN; EN_DASH; EM_DASH; MINUS_SIGN]) ws.
Proof.
  induction ws as [|c ws IH]; simpl; [constructor|].
  intros H. apply andb_prop in H as [H1 H2]. constructor; [by left|by apply IH].
Qed.

Ltac blk := first
  [ done
  | constructor; [right; simpl in *; tauto | constructor]
  | constructor; [left; done | constructor]
  | by apply Forall_all_space
  | apply Forall_app; split; [by apply Forall_all_space|];
    constructor; [right; simpl; tauto | by apply Forall_all_space] ].

(** *** Facts of Python's [str.lower] used by the normalizer proofs *)

Section LowerFacts.

Variable lower : pystr -> pystr.

(** A string whose characters are each their own lower case is unchanged
    (the only context-dependent mapping, final sigma, applies to the
    capital sigma, which is not its own lower case). *)
Hypothesis lower_fixed_chars :
  forall u, Forall (fun d => lower [d] = [d]) u -> lower u = u.
(** Every character [str.lower] produces is its own lower case. *)
Hypothesis lower_output_fixed :
  forall s d, In d (lower s) -> lower [d] = [d].
Hypothesis lower_space : lower [SPACE] = [SPACE].
Hypothesis lower_hyphen : lower [HYPHEN] = [HYPHEN].
Hypothesis lower_apos : lower [APOS] = [APOS].
(** On ASCII text and the four replaced punctuation characters, [str.lower]
    is the ASCII lower-casing. *)
Hypothesis lower_ascii :
  forall u, Forall (fun d => (d < 128)%N \/ is_special d = true) u ->
  lower u = ascii_lower u.
(** [str.lower] works character by character, except for the capital
    sigma, whose lower case depends on the cased letters around it,
    skipping case-ignorable characters.  White space, ["-"] and the three
    dash glyphs are neither cased nor case-ignorable and are their own
    lower case, so a non-empty block of them is kept and cuts the context. *)
Hypothesis lower_uncased_block :
  forall x u z, u <> [] ->
  Forall (fun d => is_space d = true \/ In d [HYPHEN; EN_DASH; EM_DASH; MINUS_SIGN]) u ->
  lower (x ++ u ++ z) = lower x ++ u ++ lower z.

Lemma lower_idem s : lower (lower s) = lower s.
Proof.
  apply lower_fixed_chars. apply List.Forall_forall. intros d Hd.
  by apply (lower_output_fixed s).
Qed.

Lemma normalized_chars s d :
  In d (normalize_playlist_name lower s) -> lower [d] = [d] /\ is_special d = false.
Proof.
  rewrite normalize_playlist_name_unfold. intros H.
  apply in_strip, in_subs in H as [H|[ -> | -> ]]; [|split; done|split; done].
  apply in_replacements in H as [Hs [H|[ -> | -> ]]]; [|split; done|split; done].
  split; [|done]. by apply (lower_output_fixed s).
Qed.

Lemma normalized_fixed s :
  lower (normalize_playlist_name lower s) = normalize_playlist_name lower s /\
  replacements (normalize_playlist_name lower s) = normalize_playlist_name lower s.
Proof.
  split.
  - apply lower_fixed_chars. apply List.Forall_forall. intros d Hd.
    by apply (normalized_chars s).
  - apply replacements_id. intros d Hd. by apply (normalized_chars s).
Qed.

Lemma normalize_ascii s :
  Forall (fun d => (d < 128)%N \/ is_special d = true) s ->
  normalize_playlist_name lower s = normalize_playlist_name ascii_lower s.
Proof. intros H. rewrite !normalize_playlist_name_unfold. by rewrite lower_ascii. Qed.

Lemma lower_nil : lower [] = [].
Proof. apply lower_fixed_chars. constructor. Qed.

Lemma lower_spaces_left ws z :
  all_space ws = true -> lower (ws ++ z) = ws ++ lower z.
Proof.
  intros H. destruct ws as [|c ws]; [done|].
  rewrite <- (app_nil_l ((c :: ws) ++ z)), lower_uncased_block, lower_nil;
    [done|done|by apply Forall_all_space].
Qed.

Lemma lower_spaces_right z ws :
  all_space ws = true -> lower (z ++ ws) = lower z ++ ws.
Proof.
  intros H. destruct ws as [|c ws]; [by rewrite !app_nil_r|].
  rewrite <- (app_nil_r (z ++ c :: ws)), <- app_assoc, lower_uncased_block, lower_nil;
    [by rewrite app_nil_r|done|by apply Forall_all_space].
Qed.

(** C9: [normalize_playlist_name] is idempotent and it identifies case,
    dash glyph and white-space variants:
    - applying it twice gives the same as applying it once;
    - a name and its lower-cased form normalize alike;
    - replacing an en dash, em dash or minus sign anywhere in a name by
      ["-"] does not change the result;
    - replacing a non-empty white-space run anywhere in a name by one
      space does not change the result;
    - white space (possibly none) before and after a ["-"] anywhere in a
      name does not change the result;
    - leading and trailing white space does not change the result;
    - in particular ["Foo — Bar"] and ["foo - bar"] normalize alike, and
      so do ["Foo—Bar"] and ["foo \t-   bar "]. *)
Theorem normalize_playlist_name_idempotent :
  (forall name,
     normalize_playlist_name lower (normalize_playlist_name lower name)
     = normalize_playlist_name lower name) /\
  (forall name,
     normalize_playlist_name lower (lower name) = normalize_playlist_name lower name) /\
  (forall x d y, In d [EN_DASH; EM_DASH; MINUS_SIGN] ->
     normalize_playlist_name lower (x ++ [d] ++ y)
     = normalize_playlist_name lower (x ++ [HYPHEN] ++ y)) /\
  (forall x ws y, ws <> [] -> all_space ws = true ->
     normalize_playlist_name lower (x ++ ws ++ y)
     = normalize_playlist_name lower (x ++ [SPACE] ++ y)) /\
  (forall x ws1 ws2 y, all_space ws1 = true -> all_space ws2 = true ->
     normalize_playlist_name lower (x ++ ws1 ++ [HYPHEN] ++ ws2 ++ y)
     = normalize_playlist_name lower (x ++ [HYPHEN] ++ y)) /\
  (forall ws1 x ws2, all_space ws1 = true -> all_space ws2 = true ->
     normalize_playlist_name lower (ws1 ++ x ++ ws2)
     = normalize_playlist_name lower x) /\
  normalize_playlist_name lower (str "Foo " ++ [EM_DASH] ++ str " Bar")
  = normalize_playlist_name lower (str "foo - bar") /\
  normalize_playlist_name lower (str "Foo" ++ [EM_DASH] ++ str "Bar")
  = normalize_playlist_name lower (str "foo " ++ [9%N] ++ str "-   bar ").
Proof.
  split; [|split; [|split; [|split; [|split; [|split; [|split]]]]]].
  - intros name. destruct (normalized_fixed name) as [Hl Hr].
    rewrite (normalize_playlist_name_unfold lower (normalize_playlist_name lower name)).
    rewrite Hl, Hr. rewrite normalize_playlist_name_unfold.
    by rewrite strip_subs_strip, subs_idem.
  - intros name. rewrite !normalize_playlist_name_unfold. by rewrite lower_idem.
  - intros x d y Hd. rewrite !normalize_playlist_name_unfold.
    rewrite (lower_uncased_block x [d] y), (lower_uncased_block x [HYPHEN] y) by blk.
    rewrite !replacements_app, (replacements_dash d), (replacements_dash HYPHEN);
      [done|simpl; tauto|simpl in *; tauto].
  - intros x ws y Hne Hws. rewrite !normalize_playlist_name_unfold.
    rewrite (lower_uncased_block x ws y), (lower_uncased_block x [SPACE] y) by blk.
    rewrite !replacements_app, (replacements_spaces ws), (replacements_spaces [SPACE])
      by done.
    by rewrite subs_run.
  - intros x ws1 ws2 y H1 H2. rewrite !normalize_playlist_name_unfold.
    replace (x ++ ws1 ++ [HYPHEN] ++ ws2 ++ y) with (x ++ (ws1 ++ [HYPHEN] ++ ws2) ++ y)
      by (by rewrite <- !app_assoc).
    rewrite (lower_uncased_block x [HYPHEN] y) by blk.
    rewrite (lower_uncased_block x (ws1 ++ [HYPHEN] ++ ws2) y);
      [|by destruct ws1|].
    2:{ apply Forall_app. split; [by apply Forall_all_space|].
        constructor; [right; simpl; tauto|by apply Forall_all_space]. }
    rewrite !replacements_app.
    rewrite (replacements_dash HYPHEN) by (simpl; tauto).
    rewrite (replacements_spaces ws1), (replacements_spaces ws2) by done.
    rewrite <- !app_assoc. simpl. by rewrite subs_hyphen_spaces.
  - intros ws1 x ws2 H1 H2. rewrite !normalize_playlist_name_unfold.
    rewrite lower_spaces_left, lower_spaces_right by done.
    rewrite !replacements_app, (replacements_spaces ws1), (replacements_spaces ws2)
      by done.
    by apply subs_strip_around.
  - rewrite !normalize_ascii by (repeat constructor; vm_compute; auto).
    reflexivity.
  - rewrite !normalize_ascii by (repeat constructor; vm_compute; auto).
    reflexivity.
Qed.

End LowerFacts.

Lemma ascii_lower_char_idem c : ascii_lower_char (ascii_lower_char c) = ascii_lower_char c.
Proof.
  unfold ascii_lower_char.
  destruct ((65 <=? c) && (c <=? 90))%N eqn:E; [|by rewrite E].
  apply andb_prop in E as [E1 E2]. apply N.leb_le in E1, E2.
  replace ((65 <=? c + 32) && (c + 32 <=? 90))%N with false; [done|].
  symmetry. apply andb_false_intro2. apply N.leb_gt. lia.
Qed.

Lemma ascii_lower_fixed_chars u :
  Forall (fun d => ascii_lower [d] = [d]) u -> ascii_lower u = u.
Proof.
  induction 1 as [|d u Hd _ IH]; [done|]. simpl in *. injection Hd as ->. by rewrite IH.
Qed.

Lemma ascii_lower_output_fixed s d : In d (ascii_lower s) -> ascii_lower [d] = [d].
Proof.
  unfold ascii_lower. rewrite in_map_iff. intros [c [<- _]]. simpl.
  by rewrite ascii_lower_char_idem.
Qed.

Lemma ascii_lower_char_uncased d :
  is_space d = true \/ In d [HYPHEN; EN_DASH; EM_DASH; MINUS_SIGN] ->
  ascii_lower_char d = d.
Proof.
  intros Hd. unfold ascii_lower_char.
  destruct ((65 <=? d) && (d <=? 90))%N eqn:E; [|done]. exfalso.
  rewrite andb_true_iff, !N.leb_le in E.
  destruct Hd as [Hd|Hd].
  - unfold is_space in Hd. rewrite !orb_true_iff, !andb_true_iff, !N.leb_le, !N.eqb_eq in Hd.
    lia.
  - unfold HYPHEN, EN_DASH, EM_DASH, MINUS_SIGN in Hd. simpl in Hd. lia.
Qed.

Lemma ascii_lower_uncased_block x u z :
  u <> [] ->
  Forall (fun d => is_space d = true \/ In d [HYPHEN; EN_DASH; EM_DASH; MINUS_SIGN]) u ->
  ascii_lower (x ++ u ++ z) = ascii_lower x ++ u ++ ascii_lower z.
Proof.
  intros _ Hu. unfold ascii_lower. rewrite !map_app. f_equal. f_equal.
  induction Hu as [|d u Hd _ IH]; [done|]. simpl. by rewrite ascii_lower_char_uncased, IH.
Qed.

Lemma normalize_playlist_name_idempotent_witness :
  (forall name,
     normalize_playlist_name ascii_lower (normalize_playlist_name ascii_lower name)
     = normalize_playlist_name ascii_lower name) /\
  (forall name,
     normalize_playlist_name ascii_lower (ascii_lower name)
     = normalize_playlist_name ascii_lower name) /\
  (forall x d y, In d [EN_DASH; EM_DASH; MINUS_SIGN] ->
     normalize_playlist_name ascii_lower (x ++ [d] ++ y)
     = normalize_playlist_name ascii_lower (x ++ [HYPHEN] ++ y)) /\
  (forall x ws y, ws <> [] -> all_space ws = true ->
     normalize_playlist_name ascii_lower (x ++ ws ++ y)
     = normalize_playlist_name ascii_lower (x ++ [SPACE] ++ y)) /\
  (forall x ws1 ws2 y, all_space ws1 = true -> all_space ws2 = true ->
     normalize_playlist_name ascii_lower (x ++ ws1 ++ [HYPHEN] ++ ws2 ++ y)
     = normalize_playlist_name ascii_lower (x ++ [HYPHEN] ++ y)) /\
  (forall ws1 x ws2, all_space ws1 = true -> all_space ws2 = true ->
     normalize_playlist_name ascii_lower (ws1 ++ x ++ ws2)
     = normalize_playlist_name ascii_lower x) /\
  normalize_playlist_name ascii_lower (str "Foo " ++ [EM_DASH] ++ str " Bar")
  = normalize_playlist_name ascii_lower (str "foo - bar") /\
  normalize_playlist_name ascii_lower (str "Foo" ++ [EM_DASH] ++ str "Bar")
  = normalize_playlist_name ascii_lower (str "foo " ++ [9%N] ++ str "-   bar ").
Proof.
  apply (normalize_playlist_name_idempotent ascii_lower
           ascii_lower_fixed_chars ascii_lower_output_fixed
           eq_refl eq_refl eq_refl (fun u _ => eq_refl)
           ascii_lower_uncased_block).
Defined.

(* ------------------------------------------------------------------ *)
(** ** Chunked insertion *)

Lemma bind_issue {B} c (k : unit -> M B) w :
  bind (issue c) k w = k tt (mk_world (w_playlists w) (w_calls w ++ [c]) (w_doc w)).
Proof. reflexivity. Qed.

Lemma for_each_issue {A} (f : A -> call) idx w :
  for_each idx (fun i => issue (f i)) w
  = (inr tt, mk_world (w_playlists w) (w_calls w ++ map f idx) (w_doc w)).
Proof.
  revert w. induction idx as [|i idx IH]; intros [pl cs d]; simpl.
  - by rewrite app_nil_r.
  - unfold bind. simpl. rewrite IH. simpl. by rewrite <- app_assoc.
Qed.

Lemma py_slice_chunk {A} (l : list A) i k :
  (0 <= i)%Z -> (0 < k)%Z ->
  py_slice l i (i + k) = take (Z.to_nat k) (drop (Z.to_nat i) l).
Proof.
  intros Hi Hk. unfold py_slice, py_index.
  rewrite (proj2 (Z.ltb_ge i 0)), (proj2 (Z.ltb_ge (i + k) 0)) by lia.
  destruct (Z.le_gt_cases (Z.of_nat (length l)) i) as [Hle|Hgt].
  - rewrite (Z.min_r i) by lia. rewrite Z.min_r by lia.
    rewrite Z.sub_diag. simpl.
    rewrite (drop_ge l (Z.to_nat i)) by lia. by rewrite take_nil.
  - rewrite (Z.min_l i) by lia.
    replace (Z.to_nat (Z.min (i + k) (Z.of_nat (length l)) - i))
      with (Nat.min (Z.to_nat k) (length l - Z.to_nat i)) by lia.
    rewrite <- take_take. f_equal. apply take_ge. rewrite length_drop. lia.
Qed.

Lemma concat_chunks {A} (l : list A) k fuel i :
  (0 < k)%Z -> (0 <= i)%Z -> (Z.of_nat (length l) - i <= Z.of_nat fuel)%Z ->
  concat (map (fun j => py_slice l j (j + k)) (range_go fuel i (Z.of_nat (length l)) k))
  = drop (Z.to_nat i) l.
Proof.
  intros Hk. revert i. induction fuel as [|f IH]; intros i Hi Hf; simpl.
  - rewrite drop_ge by lia. done.
  - rewrite (proj2 (Z.ltb_lt 0 k) Hk).
    destruct (i <? Z.of_nat (length l))%Z eqn:E.
    + apply Z.ltb_lt in E. simpl. rewrite IH by lia.
      rewrite py_slice_chunk by lia.
      replace (Z.to_nat (i + k)) with (Z.to_nat i + Z.to_nat k)%nat by lia.
      rewrite <- drop_drop. apply take_drop.
    + apply Z.ltb_ge in E. simpl. rewrite drop_ge by lia. done.
Qed.

Lemma chunks_bounded {A} (l : list A) k fuel i :
  (0 < k)%Z -> (0 <= i)%Z ->
  Forall (fun c => (Z.of_nat (length c) <= k)%Z)
    (map (fun j => py_slice l j (j + k)) (range_go fuel i (Z.of_nat (length l)) k)).
Proof.
  intros Hk. revert i. induction fuel as [|f IH]; intros i Hi; simpl; [constructor|].
  destruct (if (0 <? k)%Z then _ else _) eqn:E; simpl; [|constructor].
  constructor; [|apply IH; lia].
  rewrite py_slice_chunk by lia. rewrite length_take. lia.
Qed.

(** C5: with a positive chunk size (the only kind [main] lets through),
    [replace_playlist_tracks] issues one replace call with at most 100
    identifiers followed by add calls of at most [chunk_size] identifiers,
    and the replace payload followed by the add payloads, in order, is the
    whole list; [add_tracks_in_chunks] issues only add calls of at most
    [chunk_size] identifiers whose payloads, in order, are the whole list. *)
Theorem chunked_insertion_bounds playlist_id uris chunk_size w
    (Hk : (0 < chunk_size)%Z) :
  (exists first chunks,
     replace_playlist_tracks playlist_id uris chunk_size w
     = (inr tt, mk_world (w_playlists w)
                  (w_calls w ++ ReplaceItems playlist_id first
                               :: map (AddItems playlist_id) chunks) (w_doc w)) /\
     length first <= 100 /\
     Forall (fun c => (Z.of_nat (length c) <= chunk_size)%Z) chunks /\
     first ++ concat chunks = uris) /\
  (exists chunks,
     add_tracks_in_chunks playlist_id uris chunk_size w
     = (inr tt, mk_world (w_playlists w)
                  (w_calls w ++ map (AddItems playlist_id) chunks) (w_doc w)) /\
     Forall (fun c => (Z.of_nat (length c) <= chunk_size)%Z) chunks /\
     concat chunks = uris).
Proof.
  assert (Hstep : (chunk_size =? 0)%Z = false) by (apply Z.eqb_neq; lia).
  split.
  - unfold replace_playlist_tracks, py_range. rewrite Hstep.
    set (idx := range_go _ 100 _ chunk_size).
    exists (py_slice uris 0 100),
           (map (fun i => py_slice uris i (i + chunk_size)) idx).
    split; [|split; [|split]].
    + rewrite bind_issue, for_each_issue. simpl. by rewrite <- app_assoc, map_map.
    + unfold py_slice, py_index. simpl. rewrite length_take. lia.
    + apply chunks_bounded; lia.
    + unfold idx. rewrite concat_chunks by lia.
      replace (py_slice uris 0 100) with (take 100 uris).
      * apply take_drop.
      * rewrite <- (Z.add_0_l 100). rewrite py_slice_chunk by lia. reflexivity.
  - unfold add_tracks_in_chunks, py_range. rewrite Hstep.
    set (idx := range_go _ 0 _ chunk_size).
    exists (map (fun i => py_slice uris i (i + chunk_size)) idx).
    split; [|split].
    + rewrite for_each_issue. by rewrite map_map.
    + apply chunks_bounded; lia.
    + unfold idx. rewrite concat_chunks by lia. done.
Qed.

Lemma chunked_insertion_bounds_witness :
  (0 < 2)%Z /\
  (exists first chunks,
     replace_playlist_tracks (str "p") [str "a"; str "b"; str "c"] 2 (mk_world [] [] [])
     = (inr tt, mk_world [] ([] ++ ReplaceItems (str "p") first
                               :: map (AddItems (str "p")) chunks) []) /\
     length first <= 100 /\
     Forall (fun c => (Z.of_nat (length c) <= 2)%Z) chunks /\
     first ++ concat chunks = [str "a"; str "b"; str "c"]) /\
  (exists chunks,
     add_tracks_in_chunks (str "p") [str "a"; str "b"; str "c"] 2 (mk_world [] [] [])
     = (inr tt, mk_world [] ([] ++ map (AddItems (str "p")) chunks) []) /\
     Forall (fun c => (Z.of_nat (length c) <= 2)%Z) chunks /\
     concat chunks = [str "a"; str "b"; str "c"]).
Proof.
  split; [lia|].
  exact (chunked_insertion_bounds (str "p") [str "a"; str "b"; str "c"] 2
           (mk_world [] [] []) ltac:(lia)).
Defined.

(* ------------------------------------------------------------------ *)
(** ** Deduplication of the aggregated tracks *)

Lemma fold_extend (per_artist : list (list pystr)) acc :
  fold_left (fun all ts => all ++ ts) per_artist acc = acc ++ concat per_artist.
Proof.
  revert acc. induction per_artist as [|ts per IH]; intros acc; simpl.
  - by rewrite app_nil_r.
  - by rewrite IH, app_assoc.
Qed.

Lemma dict_fromkeys_snoc l x :
  dict_fromkeys (l ++ [x]) =
  if bool_decide (x ∈ dict_fromkeys l) then dict_fromkeys l else dict_fromkeys l ++ [x].
Proof. unfold dict_fromkeys. by rewrite fold_left_app. Qed.

Lemma elem_of_dict_fromkeys l y : y ∈ dict_fromkeys l <-> y ∈ l.
Proof.
  induction l as [|x l IH] using rev_ind; [done|].
  rewrite dict_fromkeys_snoc. case_bool_decide; set_solver.
Qed.

Lemma NoDup_dict_fromkeys l : NoDup (dict_fromkeys l).
Proof.
  induction l as [|x l IH] using rev_ind; [constructor|].
  rewrite dict_fromkeys_snoc. case_bool_decide; [done|].
  apply NoDup_app. split; [done|]. split; [set_solver|]. apply NoDup_singleton.
Qed.

Lemma omap_ext_in {A B} (f g : A -> option B) (xs : list A) :
  (forall i, i ∈ xs -> f i = g i) -> omap f xs = omap g xs.
Proof.
  induction xs as [|i xs IH]; intros H; [done|]. simpl.
  rewrite (H i) by set_solver.
  assert (IH' : omap f xs = omap g xs) by (apply IH; set_solver).
  destruct (g i); [f_equal|]; exact IH'.
Qed.

Lemma first_occurrences_snoc l x :
  first_occurrences (l ++ [x]) =
  first_occurrences l ++ (if decide (x ∈ l) then [] else [x]).
Proof.
  unfold first_occurrences. rewrite length_app. simpl.
  rewrite Nat.add_1_r, seq_S. simpl. rewrite omap_app. f_equal.
  - apply omap_ext_in. intros i Hi. apply elem_of_seq in Hi.
    rewrite lookup_app_l by lia. rewrite take_app_le by lia. done.
  - simpl. rewrite lookup_app_r by lia. rewrite Nat.sub_diag. simpl.
    rewrite take_app_length. by destruct (decide (x ∈ l)).
Qed.

Lemma dict_fromkeys_first_occurrences l : dict_fromkeys l = first_occurrences l.
Proof.
  induction l as [|x l IH] using rev_ind; [done|].
  rewrite dict_fromkeys_snoc, first_occurrences_snoc, <- IH.
  assert (E := elem_of_dict_fromkeys l x).
  case_bool_decide; destruct (decide (x ∈ l)); try tauto.
  by rewrite app_nil_r.
Qed.

(** C6: the aggregated track list has no duplicate identifier, holds
    exactly the identifiers of the per-artist lists, and is the list of
    first occurrences of the concatenation of the per-artist lists in
    band-iteration order (each in per-artist rank order); in particular
    aggregating [[a; b; a; c]] then [[b; d]] yields [[a; b; c; d]]. *)
Theorem aggregate_first_occurrences (per_artist : list (list pystr)) :
  NoDup (aggregate per_artist) /\
  (forall x, x ∈ aggregate per_artist <-> x ∈ concat per_artist) /\
  aggregate per_artist = first_occurrences (concat per_artist) /\
  aggregate [[str "a"; str "b"; str "a"; str "c"]; [str "b"; str "d"]]
  = [str "a"; str "b"; str "c"; str "d"].
Proof.
  unfold aggregate. rewrite fold_extend. simpl.
  split; [apply NoDup_dict_fromkeys|].
  split; [intros x; apply elem_of_dict_fromkeys|].
  split; [apply dict_fromkeys_first_occurrences|].
  vm_compute. reflexivity.
Qed.

(* ------------------------------------------------------------------ *)
(** ** Artist resolution *)

Lemma first_exact_some lower lq items a :
  first_exact lower lq items = Some a ->
  exists pre post, items = pre ++ a :: post /\ lower (ar_name a) = lq /\
    Forall (fun b => lower (ar_name b) <> lq) pre.
Proof.
  induction items as [|b rest IH]; simpl; [discriminate|].
  case_bool_decide as Hb.
  - intros [= <-]. exists [], rest. auto.
  - intros Hs. destruct (IH Hs) as (pre & post & -> & Ha & Hpre).
    exists (b :: pre), post. auto.
Qed.

Lemma first_exact_none lower lq items :
  first_exact lower lq items = None -> Forall (fun b => lower (ar_name b) <> lq) items.
Proof.
  induction items as [|b rest IH]; simpl; [auto|].
  case_bool_decide; [discriminate|auto].
Qed.

(** C7: [pick_best_artist] returns an artist only if it is the first item
    of the search results (fetched with limit [search_limit]) whose name
    equals the query case-insensitively; it returns [None] exactly when the
    query is empty or no item of the results matches. *)
Theorem pick_best_artist_exact_match lower sp query search_limit w :
  let q := str "artist:" ++ query in
  let items := api_search sp q search_limit in
  match pick_best_artist lower sp query search_limit w with
  | (inr (Some a), w') =>
      query <> [] /\ w_calls w' = w_calls w ++ [Search q search_limit] /\
      exists pre post, items = pre ++ a :: post /\
        lower (ar_name a) = lower query /\
        Forall (fun b => lower (ar_name b) <> lower query) pre
  | (inr None, _) =>
      query = [] \/ Forall (fun b => lower (ar_name b) <> lower query) items
  | (inl _, _) => False
  end.
Proof.
  intros q items. unfold pick_best_artist, bind, issue, ret.
  case_bool_decide as Hq; [by left|]. fold q. simpl. fold items.
  case_bool_decide as Hi.
  - right. rewrite Hi. constructor.
  - destruct (first_exact lower (lower query) items) as [a|] eqn:E.
    + split; [done|]. split; [done|]. by apply first_exact_some.
    + right. by apply first_exact_none.
Qed.

(* ------------------------------------------------------------------ *)
(** ** The annotator and the track-count suffix *)

(** C1: on the entry [- Beta (2) _(not added: intentionally skipped)_]
    the parser yields the base name [Beta] and marks it skipped, while the
    annotator computes the base name [Beta (2)]: that name is in none of
    the result sets, so the line is rewritten as [- Beta (2)] without the
    skipped hint, and the next run searches the catalog for [Beta]. *)
Theorem update_bands_hints_override_entry :
  let line := str "- Beta (2) _(not added: intentionally skipped)_" in
  let sp := empty_catalog (str "me") in
  let cfg := default_config (str "bands") in
  load_bands [line] DEFAULT_NOT_FOUND_HINT DEFAULT_SKIPPED_HINT
    = ([str "Beta"], {[str "Beta"]}, {[str "Beta" := 2%Z]}) /\
  update_line ∅ {[str "Beta"]} DEFAULT_NOT_FOUND_HINT DEFAULT_SKIPPED_HINT ∅ line
    = str "- Beta (2)" /\
  main ascii_lower sp (fun _ _ => O) cfg 10 (mk_world [] [] [line])
    = (inl (SystemExit (str "No tracks found. Playlist was not created.")),
       mk_world [] [CurrentUser] [str "- Beta (2)"]) /\
  main ascii_lower sp (fun _ _ => O) cfg 10 (mk_world [] [] [str "- Beta (2)"])
    = (inl (SystemExit (str "No tracks found. Playlist was not created.")),
       mk_world [] [CurrentUser; Search (str "artist:Beta") 5] [str "- Beta (2)"]).
Proof. vm_compute. repeat split; reflexivity. Qed.

(* ------------------------------------------------------------------ *)
(** ** Frame lemmas *)

Lemma calls_in_ret P {A} (x : A) : calls_in P (ret x).
Proof. intros w. exists []. simpl. by rewrite app_nil_r. Qed.

Lemma calls_in_throw P {A} e : calls_in P (@throw A e).
Proof. intros w. exists []. simpl. by rewrite app_nil_r. Qed.

Lemma calls_in_issue (P : call -> Prop) c : P c -> calls_in P (issue c).
Proof. intros Hc w. exists [c]. auto. Qed.

Lemma calls_in_get_doc P : calls_in P get_doc.
Proof. intros w. exists []. simpl. by rewrite app_nil_r. Qed.

Lemma calls_in_put_doc P d : calls_in P (put_doc d).
Proof. intros w. exists []. simpl. by rewrite app_nil_r. Qed.

Lemma calls_in_get_playlists P : calls_in P get_playlists.
Proof. intros w. exists []. simpl. by rewrite app_nil_r. Qed.

Lemma calls_in_bind P {A B} (m : M A) (k : A -> M B) :
  calls_in P m -> (forall x, calls_in P (k x)) -> calls_in P (bind m k).
Proof.
  intros Hm Hk w. unfold bind. destruct (Hm w) as (cs1 & E1 & F1).
  destruct (m w) as [[e|x] w1]; simpl in *.
  - eauto.
  - destruct (Hk x w1) as (cs2 & E2 & F2). exists (cs1 ++ cs2).
    rewrite E2, E1, app_assoc. split; [done|]. by apply Forall_app.
Qed.

Lemma calls_in_mono (P Q : call -> Prop) {A} (m : M A) :
  (forall c, P c -> Q c) -> calls_in P m -> calls_in Q m.
Proof.
  intros HPQ Hm w. destruct (Hm w) as (cs & E & F). exists cs.
  split; [done|]. eapply Forall_impl; eauto.
Qed.

Lemma calls_in_for_each P {A} (l : list A) body :
  (forall x, calls_in P (body x)) -> calls_in P (for_each l body).
Proof.
  intros Hb. induction l as [|x l IH]; simpl.
  - apply calls_in_ret.
  - by apply calls_in_bind.
Qed.

Lemma keeps_ret {A} (x : A) : keeps_playlists (ret x).
Proof. done. Qed.

Lemma keeps_throw {A} e : keeps_playlists (@throw A e).
Proof. done. Qed.

Lemma keeps_issue c : keeps_playlists (issue c).
Proof. done. Qed.

Lemma keeps_get_doc : keeps_playlists get_doc.
Proof. done. Qed.

Lemma keeps_put_doc d : keeps_playlists (put_doc d).
Proof. done. Qed.

Lemma keeps_get_playlists : keeps_playlists get_playlists.
Proof. done. Qed.

Lemma keeps_bind {A B} (m : M A) (k : A -> M B) :
  keeps_playlists m -> (forall x, keeps_playlists (k x)) -> keeps_playlists (bind m k).
Proof.
  intros Hm Hk w. unfold bind. specialize (Hm w).
  destruct (m w) as [[e|x] w1]; simpl in *; [done|]. by rewrite Hk.
Qed.

Lemma keeps_for_each {A} (l : list A) body :
  (forall x, keeps_playlists (body x)) -> keeps_playlists (for_each l body).
Proof.
  intros Hb. induction l as [|x l IH]; simpl.
  - apply keeps_ret.
  - by apply keeps_bind.
Qed.

Create HintDb frame.
#[local] Hint Resolve calls_in_ret calls_in_throw calls_in_get_doc calls_in_put_doc
  calls_in_get_playlists calls_in_bind calls_in_for_each calls_in_issue : frame.
#[local] Hint Resolve keeps_ret keeps_throw keeps_issue keeps_get_doc keeps_put_doc
  keeps_get_playlists keeps_bind keeps_for_each : frame.

Lemma pl_det_ret {A} (x : A) : pl_det (ret x).
Proof. by intros w w' E. Qed.

Lemma pl_det_throw {A} e : pl_det (@throw A e).
Proof. by intros w w' E. Qed.

Lemma pl_det_issue c : pl_det (issue c).
Proof. by intros w w' E. Qed.

Lemma pl_det_put_doc d : pl_det (put_doc d).
Proof. by intros w w' E. Qed.

Lemma pl_det_get_playlists : pl_det get_playlists.
Proof. intros w w' E. simpl. by rewrite E. Qed.

Lemma pl_det_bind {A B} (m : M A) (k : A -> M B) :
  pl_det m -> (forall x, pl_det (k x)) -> pl_det (bind m k).
Proof.
  intros Hm Hk w w' E. unfold bind. destruct (Hm w w' E) as [E1 E2].
  destruct (m w) as [[e|x] w1], (m w') as [[e'|x'] w1']; simpl in *;
    try discriminate; [by injection E1 as ->|].
  injection E1 as <-. by apply Hk.
Qed.

Lemma pl_det_for_each {A} (l : list A) body :
  (forall x, pl_det (body x)) -> pl_det (for_each l body).
Proof.
  intros Hb. induction l as [|x l IH]; simpl.
  - apply pl_det_ret.
  - by apply pl_det_bind.
Qed.

Ltac frame_auto :=
  repeat match goal with
  | |- calls_in _ (bind _ _) => apply calls_in_bind; [|intros ?]
  | |- keeps_playlists (bind _ _) => apply keeps_bind; [|intros ?]
  | |- pl_det (bind _ _) => apply pl_det_bind; [|intros ?]
  | |- calls_in _ (for_each _ _) => apply calls_in_for_each; intros ?
  | |- keeps_playlists (for_each _ _) => apply keeps_for_each; intros ?
  | |- pl_det (for_each _ _) => apply pl_det_for_each; intros ?
  | |- calls_in _ (ret _) => apply calls_in_ret
  | |- calls_in _ (throw _) => apply calls_in_throw
  | |- calls_in _ get_doc => apply calls_in_get_doc
  | |- calls_in _ (put_doc _) => apply calls_in_put_doc
  | |- calls_in _ get_playlists => apply calls_in_get_playlists
  | |- keeps_playlists _ => first [ apply keeps_ret | apply keeps_throw | apply keeps_issue
                                  | apply keeps_get_doc | apply keeps_put_doc
                                  | apply keeps_get_playlists ]
  | |- pl_det _ => first [ apply pl_det_ret | apply pl_det_throw | apply pl_det_issue
                         | apply pl_det_put_doc | apply pl_det_get_playlists ]
  | |- _ => case_match
  end.

(** The band loop: read-only calls, searches only for bands outside the
    skipped set; the listing is untouched and not read. *)
Lemma band_step_calls lower sp S ov tl sl st band :
  calls_in (fun c => readonly_call c = true /\ searched_unskipped S c)
    (band_step lower sp S ov tl sl st band).
Proof.
  unfold band_step, normalize_artist_query.
  destruct (decide (band ∈ S)) as [Hb|Hb].
  - rewrite (bool_decide_true _ Hb), bool_decide_true by done. apply calls_in_ret.
  - rewrite (bool_decide_false _ Hb). cbv zeta.
    case_bool_decide as Hn; [apply calls_in_ret|].
    apply calls_in_bind.
    + unfold pick_best_artist. rewrite (bool_decide_false _ Hn).
      apply calls_in_bind.
      * apply calls_in_issue. split; [done|]. intros q l [= <- _]. eauto.
      * intros _. case_match; apply calls_in_ret.
    + intros [a|]; [|apply calls_in_ret]. unfold top_tracks_for_artist.
      frame_auto. by apply calls_in_issue.
Qed.

Lemma band_step_keeps lower sp S ov tl sl st band :
  keeps_playlists (band_step lower sp S ov tl sl st band).
Proof. unfold band_step, pick_best_artist, top_tracks_for_artist. frame_auto. Qed.

Lemma band_step_det lower sp S ov tl sl st band :
  pl_det (band_step lower sp S ov tl sl st band).
Proof. unfold band_step, pick_best_artist, top_tracks_for_artist. frame_auto. Qed.

Lemma band_loop_calls lower sp S ov tl sl bands st :
  calls_in (fun c => readonly_call c = true /\ searched_unskipped S c)
    (band_loop lower sp S ov tl sl bands st).
Proof.
  revert st. induction bands as [|b bands IH]; intros st; simpl; frame_auto.
  - apply band_step_calls.
  - apply IH.
Qed.

Lemma band_loop_keeps lower sp S ov tl sl bands st :
  keeps_playlists (band_loop lower sp S ov tl sl bands st).
Proof.
  revert st. induction bands as [|b bands IH]; intros st; simpl; frame_auto.
  - apply band_step_keeps.
  - apply IH.
Qed.

Lemma band_loop_det lower sp S ov tl sl bands st :
  pl_det (band_loop lower sp S ov tl sl bands st).
Proof.
  revert st. induction bands as [|b bands IH]; intros st; simpl; frame_auto.
  - apply band_step_det.
  - apply IH.
Qed.

Lemma current_user_playlists_calls l o :
  calls_in (fun c => c = CurrentUserPlaylists l o) (current_user_playlists l o).
Proof. unfold current_user_playlists. frame_auto. by apply calls_in_issue. Qed.

Lemma current_user_playlists_keeps l o : keeps_playlists (current_user_playlists l o).
Proof. unfold current_user_playlists. frame_auto. Qed.

Lemma current_user_playlists_det l o : pl_det (current_user_playlists l o).
Proof. unfold current_user_playlists. frame_auto. Qed.

Lemma find_existing_go_calls lower fuel u t o :
  calls_in (fun c => exists l o', c = CurrentUserPlaylists l o')
    (find_existing_go lower fuel u t o).
Proof.
  revert o. induction fuel as [|f IH]; intros o; simpl; frame_auto; auto.
  eapply calls_in_mono; [|apply current_user_playlists_calls]. intros c ->. eauto.
Qed.

Lemma find_existing_go_keeps lower fuel u t o :
  keeps_playlists (find_existing_go lower fuel u t o).
Proof.
  revert o. induction fuel as [|f IH]; intros o; simpl; frame_auto;
    auto using current_user_playlists_keeps.
Qed.

Lemma find_existing_go_det lower fuel u t o : pl_det (find_existing_go lower fuel u t o).
Proof.
  revert o. induction fuel as [|f IH]; intros o; simpl; frame_auto;
    auto using current_user_playlists_det.
Qed.

Lemma get_playlist_track_uris_calls sp pid :
  calls_in (fun c => c = PlaylistTracks pid) (get_playlist_track_uris sp pid).
Proof. unfold get_playlist_track_uris. frame_auto. by apply calls_in_issue. Qed.

Lemma get_playlist_track_uris_keeps sp pid : keeps_playlists (get_playlist_track_uris sp pid).
Proof. unfold get_playlist_track_uris. frame_auto. Qed.

Lemma get_playlist_track_uris_det sp pid : pl_det (get_playlist_track_uris sp pid).
Proof. unfold get_playlist_track_uris. frame_auto. Qed.

Lemma update_bands_hints_calls P nf sk nfh skh urls :
  calls_in P (update_bands_hints nf sk nfh skh urls).
Proof. unfold update_bands_hints. frame_auto. Qed.

Lemma update_bands_hints_keeps nf sk nfh skh urls :
  keeps_playlists (update_bands_hints nf sk nfh skh urls).
Proof. unfold update_bands_hints. frame_auto. Qed.

Lemma append_playlist_url_calls P url : calls_in P (append_playlist_url url).
Proof. unfold append_playlist_url. frame_auto. Qed.

Lemma append_playlist_url_keeps url : keeps_playlists (append_playlist_url url).
Proof. unfold append_playlist_url. frame_auto. Qed.

Lemma maybe_upload_cover_calls cfg pid :
  calls_in (fun c => c = UploadCover pid) (maybe_upload_cover cfg pid).
Proof. unfold maybe_upload_cover, upload_cover_image. frame_auto; by apply calls_in_issue. Qed.

Lemma maybe_upload_cover_keeps cfg pid : keeps_playlists (maybe_upload_cover cfg pid).
Proof. unfold maybe_upload_cover, upload_cover_image. frame_auto. Qed.

Lemma add_tracks_in_chunks_calls pid uris k :
  calls_in (fun c => exists l, c = AddItems pid l) (add_tracks_in_chunks pid uris k).
Proof. unfold add_tracks_in_chunks. frame_auto. apply calls_in_issue. eauto. Qed.

Lemma add_tracks_in_chunks_keeps pid uris k : keeps_playlists (add_tracks_in_chunks pid uris k).
Proof. unfold add_tracks_in_chunks. frame_auto. Qed.

Lemma replace_playlist_tracks_keeps pid uris k :
  keeps_playlists (replace_playlist_tracks pid uris k).
Proof. unfold replace_playlist_tracks. frame_auto. Qed.

(* ------------------------------------------------------------------ *)
(** ** Runs with an empty desired track list *)

Lemma bind_inr {A B} (m : M A) (k : A -> M B) w x w1 :
  m w = (inr x, w1) -> bind m k w = k x w1.
Proof. unfold bind. by intros ->. Qed.

Lemma calls_in_at {A} P (m : M A) w : calls_in P m ->
  exists cs, w_calls (snd (m w)) = w_calls w ++ cs /\ Forall P cs.
Proof. intros H. apply H. Qed.

Lemma update_bands_hints_run nf sk nfh skh urls w :
  exists w', update_bands_hints nf sk nfh skh urls w = (inr tt, w') /\
    w_calls w' = w_calls w /\ w_playlists w' = w_playlists w.
Proof. eexists. split; [reflexivity|done]. Qed.

(** C2: outside dry-run mode, when the track list of the band loop
    deduplicates to nothing, [main] stops with [SystemExit] and the only
    calls it issued are read-only: no create, replace, add, unfollow or
    cover upload. *)
Theorem empty_desired_set_aborts lower sp randbelow cfg fuel w bands skipped overrides st :
  cfg_dry_run cfg = false ->
  load_bands (w_doc w) (lstrip (cfg_not_found_hint cfg)) (lstrip (cfg_skipped_hint cfg))
    = (bands, skipped, overrides) ->
  fst (band_loop lower sp skipped overrides (cfg_track_limit cfg) (cfg_search_limit cfg)
         bands loop_init w) = inr st ->
  dict_fromkeys (ls_all_track_uris st) = [] ->
  (exists msg, fst (main lower sp randbelow cfg fuel w) = inl (SystemExit msg)) /\
  exists cs, w_calls (snd (main lower sp randbelow cfg fuel w)) = w_calls w ++ cs /\
    Forall (fun c => readonly_call c = true) cs.
Proof.
  intros Hdry Hload Hloop Hempty. unfold main. cbv zeta.
  destruct (cfg_bands_file_exists cfg); cbn [negb];
    [|split; [eauto|exists []; simpl; by rewrite app_nil_r]].
  destruct (cfg_track_limit cfg <=? 0)%Z;
    [split; [eauto|exists []; simpl; by rewrite app_nil_r]|].
  destruct (cfg_search_limit cfg <=? 0)%Z;
    [split; [eauto|exists []; simpl; by rewrite app_nil_r]|].
  destruct (cfg_chunk_size cfg <=? 0)%Z;
    [split; [eauto|exists []; simpl; by rewrite app_nil_r]|].
  destruct (cfg_cover_image cfg && negb (cfg_cover_exists cfg));
    [split; [eauto|exists []; simpl; by rewrite app_nil_r]|].
  rewrite (bind_inr get_doc _ w (w_doc w) w) by reflexivity.
  set (w1 := mk_world (w_playlists w) (w_calls w ++ [CurrentUser]) (w_doc w)).
  rewrite (bind_inr (issue CurrentUser) _ w tt w1) by reflexivity.
  rewrite Hload.
  destruct (band_loop_det lower sp skipped overrides (cfg_track_limit cfg)
              (cfg_search_limit cfg) bands loop_init w w1 eq_refl) as [Hd _].
  rewrite Hloop in Hd.
  destruct (calls_in_at _ _ w1 (band_loop_calls lower sp skipped overrides
              (cfg_track_limit cfg) (cfg_search_limit cfg) bands loop_init)) as (cs1 & E1 & F1).
  destruct (band_loop _ _ _ _ _ _ _ _ w1) as [r w2] eqn:Eb. simpl in Hd, E1. subst r.
  rewrite (bind_inr _ _ _ _ _ Eb). unfold main_reconcile. rewrite Hdry, Hempty.
  destruct (update_bands_hints_run (ls_not_found_exact st) (ls_intentionally_skipped st)
              (lstrip (cfg_not_found_hint cfg)) (lstrip (cfg_skipped_hint cfg))
              (ls_artist_urls st) w2) as (w3 & Eu & Cu & _).
  rewrite (bind_inr _ _ _ _ _ Eu).
  assert (Hd' : (if cfg_shuffle cfg then py_shuffle randbelow [] else []) = [])
    by (by destruct (cfg_shuffle cfg)).
  rewrite Hd', bool_decide_true by done. simpl.
  split; [eauto|]. exists (CurrentUser :: cs1). rewrite Cu, E1. simpl.
  split; [by rewrite <- app_assoc|]. constructor; [done|].
  eapply Forall_impl; [exact F1|]. by intros c [? _].
Qed.

Lemma empty_desired_set_aborts_witness :
  let cfg := default_config (str "bands") in
  let sp := empty_catalog (str "me") in
  let w := mk_world [] [] [str "- Gamma"] in
  let st := mk_loop_state [] [str "Gamma"] ({[str "Gamma"]} ∪ ∅) ∅ ∅ in
  load_bands (w_doc w) (lstrip (cfg_not_found_hint cfg)) (lstrip (cfg_skipped_hint cfg))
    = ([str "Gamma"], ∅, ∅) /\
  fst (band_loop ascii_lower sp ∅ ∅ (cfg_track_limit cfg) (cfg_search_limit cfg)
         [str "Gamma"] loop_init w) = inr st /\
  ((exists msg, fst (main ascii_lower sp (fun _ _ => O) cfg 10 w) = inl (SystemExit msg)) /\
   exists cs, w_calls (snd (main ascii_lower sp (fun _ _ => O) cfg 10 w)) = w_calls w ++ cs /\
     Forall (fun c => readonly_call c = true) cs).
Proof.
  intros cfg sp w st.
  split; [vm_compute; reflexivity|]. split; [vm_compute; reflexivity|].
  apply (empty_desired_set_aborts ascii_lower sp (fun _ _ => O) cfg 10 w
           [str "Gamma"] ∅ ∅ st); vm_compute; reflexivity.
Defined.

(* ------------------------------------------------------------------ *)
(** ** The deletion loop *)

Lemma unfollowed_app cs1 cs2 : unfollowed (cs1 ++ cs2) = unfollowed cs1 ++ unfollowed cs2.
Proof. unfold unfollowed. by rewrite omap_app. Qed.

Lemma delete_inv_init lower u t w : delete_inv lower u t w w ∅.
Proof.
  split; [|split; [done|]].
  - induction (w_playlists w) as [|p l IH]; [done|].
    rewrite filter_cons_True by set_solver. f_equal. exact IH.
  - exists []. rewrite app_nil_r. repeat split; try constructor; try set_solver.
Qed.

Lemma delete_inv_unfollow lower u t w0 w seen p :
  delete_inv lower u t w0 w seen -> p ∈ w_playlists w0 -> owned_match lower u t p ->
  pl_id p ∉ seen ->
  delete_inv lower u t w0 (snd (unfollow_playlist (pl_id p) w)) ({[pl_id p]} ∪ seen).
Proof.
  intros (Hpl & Hdoc & cs & Hc & Hf & Hnd & Hs & Hprov) Hp Hm Hn. simpl.
  split; [|split; [done|]].
  - rewrite Hpl, list_filter_filter. apply list_filter_iff. set_solver.
  - exists (cs ++ [UnfollowPlaylist (pl_id p)]).
    rewrite Hc, <- app_assoc, unfollowed_app. simpl.
    split; [done|]. split; [apply Forall_app; split; [done|constructor; [right; eauto|constructor]]|].
    split; [|split].
    + apply NoDup_app. split; [done|]. split; [|apply NoDup_singleton].
      intros x Hx ->%list_elem_of_singleton. apply Hn, Hs, Hx.
    + intros pid. rewrite elem_of_union, elem_of_singleton, elem_of_app,
        list_elem_of_singleton, Hs. tauto.
    + intros pid [Hx| ->%list_elem_of_singleton]%elem_of_app; eauto.
Qed.

Lemma delete_items_spec lower u t w0 items : forall seen found deleted w,
  delete_inv lower u t w0 w seen -> (forall q, q ∈ items -> q ∈ w_playlists w0) ->
  let (r, w') := delete_items lower u t items seen found deleted w in
  exists seen' found' deleted', r = inr (seen', found', deleted') /\
    delete_inv lower u t w0 w' seen' /\ seen ⊆ seen' /\
    (forall q, q ∈ items -> owned_match lower u t q -> pl_id q ∈ seen') /\
    ((found' = true /\ (found = true \/ seen ⊂ seen')) \/
     (found' = false /\ found = false /\ seen' = seen /\ w' = w)).
Proof.
  induction items as [|p items IH]; intros seen found deleted w Hinv Hin; simpl.
  - exists seen, found, deleted. split; [done|]. split; [done|]. split; [done|].
    split; [set_solver|]. destruct found; [left; auto|right; auto].
  - destruct (decide (owned_match lower u t p /\ pl_id p ∉ seen)) as [[Hm Hn]|Hno].
    + destruct Hm as (Hid & Hnm & Ho).
      rewrite (bool_decide_true (pl_id p <> [])), (bool_decide_true (_ = t)),
        (bool_decide_true (pl_owner p = u)), (bool_decide_true (pl_id p ∉ seen)) by done.
      simpl. unfold bind.
      pose proof (delete_inv_unfollow lower u t w0 w seen p Hinv
                    ltac:(apply Hin; set_solver) ltac:(done) Hn) as Hinv'.
      destruct (unfollow_playlist (pl_id p) w) as [r1 w1] eqn:Eu.
      assert (r1 = inr tt) as -> by (unfold unfollow_playlist in Eu; congruence).
      simpl in Hinv'.
      specialize (IH ({[pl_id p]} ∪ seen) true (deleted + 1)%Z w1 Hinv'
                    ltac:(intros q Hq; apply Hin; set_solver)).
      destruct (delete_items lower u t items _ true _ w1) as [r w'].
      destruct IH as (s' & f' & d' & -> & Hi & Hsub & Hcov & Hf).
      exists s', f', d'. split; [done|]. split; [done|]. split; [set_solver|].
      split.
      * intros q [ ->|Hq]%elem_of_cons Hq'; [set_solver|]. auto.
      * left. destruct Hf as [[-> _]|[? [? _]]]; [|discriminate].
        split; [done|]. right. set_solver.
    + assert (Hb : bool_decide (pl_id p <> []) && bool_decide (normalize lower (pl_name p) = t)
                   && bool_decide (pl_owner p = u) && bool_decide (pl_id p ∉ seen) = false).
      { destruct (bool_decide (pl_id p <> [])) eqn:E1,
          (bool_decide (normalize lower (pl_name p) = t)) eqn:E2,
          (bool_decide (pl_owner p = u)) eqn:E3, (bool_decide (pl_id p ∉ seen)) eqn:E4;
          try done; apply bool_decide_eq_true in E1, E2, E3, E4.
        exfalso. apply Hno. repeat split; done. }
      rewrite Hb.
      specialize (IH seen found deleted w Hinv ltac:(intros q Hq; apply Hin; set_solver)).
      destruct (delete_items lower u t items seen found deleted w) as [r w'].
      destruct IH as (s' & f' & d' & -> & Hi & Hsub & Hcov & Hf).
      exists s', f', d'. do 3 (split; [done|]). split; [|done].
      intros q [ ->|Hq]%elem_of_cons Hq'; [|auto].
      destruct (decide (pl_id p ∈ seen)); [set_solver|]. exfalso. by apply Hno.
Qed.

Lemma delete_inv_length lower u t w0 w w' s s' :
  delete_inv lower u t w0 w s -> delete_inv lower u t w0 w' s' -> s ⊆ s' ->
  length (w_playlists w') <= length (w_playlists w).
Proof.
  intros [H1 _] [H2 _] Hs. rewrite H1, H2.
  rewrite <- (list_filter_filter_l (fun p => pl_id p ∉ s') (fun p => pl_id p ∉ s))
    by set_solver.
  apply length_filter.
Qed.

Lemma delete_inv_in lower u t w0 w s q :
  delete_inv lower u t w0 w s -> q ∈ w_playlists w -> q ∈ w_playlists w0.
Proof. intros [H1 _]. rewrite H1. by intros [_ ?]%list_elem_of_filter. Qed.

Lemma current_user_playlists_run l o w :
  current_user_playlists l o w =
  (inr (py_slice (w_playlists w) o (o + l)),
   mk_world (w_playlists w) (w_calls w ++ [CurrentUserPlaylists l o]) (w_doc w)).
Proof. reflexivity. Qed.

Lemma delete_inv_cup lower u t w0 w s l o :
  delete_inv lower u t w0 w s ->
  delete_inv lower u t w0
    (mk_world (w_playlists w) (w_calls w ++ [CurrentUserPlaylists l o]) (w_doc w)) s.
Proof.
  intros (Hpl & Hdoc & cs & Hc & Hf & Hnd & Hs & Hprov).
  split; [done|]. split; [done|]. exists (cs ++ [CurrentUserPlaylists l o]). simpl.
  rewrite Hc, <- app_assoc, unfollowed_app. simpl. rewrite app_nil_r.
  split; [done|]. split; [apply Forall_app; split; [done|constructor; [left; eauto|constructor]]|].
  done.
Qed.

Lemma elem_of_take_drop {A} (x : A) n k l : x ∈ take n (drop k l) -> x ∈ l.
Proof.
  intros H. rewrite <- (take_drop k l). apply elem_of_app. right.
  rewrite <- (take_drop n (drop k l)). apply elem_of_app. by left.
Qed.

Lemma delete_scan_spec lower u t w0 fuel : forall o seen found deleted w,
  delete_inv lower u t w0 w seen -> (0 <= o)%Z ->
  let (r, w') := delete_scan lower fuel u t o seen found deleted w in
  exists seen', delete_inv lower u t w0 w' seen' /\ seen ⊆ seen' /\
  match r with
  | inl e => e = OutOfFuel /\
      (fuel = O \/ (o + 50 * Z.of_nat fuel <= Z.of_nat (length (w_playlists w)))%Z)
  | inr (s, f, d) => s = seen' /\
      ((f = true /\ (found = true \/ seen ⊂ s)) \/
       (f = false /\ found = false /\ s = seen /\ w_playlists w' = w_playlists w /\
        forall q, q ∈ drop (Z.to_nat o) (w_playlists w) -> owned_match lower u t q ->
          pl_id q ∈ seen))
  end.
Proof.
  induction fuel as [|f IH]; intros o seen found deleted w Hinv Ho.
  - simpl. exists seen. auto.
  - simpl delete_scan. unfold bind at 1. rewrite current_user_playlists_run.
    cbv beta iota.
    rewrite (py_slice_chunk _ o 50) by lia.
    change (Z.to_nat 50) with 50%nat.
    set (cur := w_playlists w). set (page := take 50 (drop (Z.to_nat o) cur)).
    set (w1 := mk_world cur (w_calls w ++ [CurrentUserPlaylists 50 o]) (w_doc w)).
    assert (Hinv1 : delete_inv lower u t w0 w1 seen) by (apply delete_inv_cup, Hinv).
    case_bool_decide as Hpage.
    + exists seen. split; [done|]. split; [done|]. split; [done|].
      destruct found; [left; auto|right].
      do 4 (split; [done|]). intros q Hq.
      assert (drop (Z.to_nat o) cur = []) as Hd.
      { apply length_zero_iff_nil. unfold page in Hpage. apply (f_equal length) in Hpage.
        rewrite length_take in Hpage. cbn [length] in Hpage. lia. }
      fold cur in Hq. rewrite Hd in Hq. set_solver.
    + unfold bind at 1.
      pose proof (delete_items_spec lower u t w0 page seen found deleted w1 Hinv1) as Hit.
      destruct (delete_items lower u t page seen found deleted w1) as [r1 w2].
      destruct Hit as (s1 & f1 & d1 & -> & Hinv2 & Hsub1 & Hcov1 & Hf1).
      { intros q Hq. apply (delete_inv_in lower u t w0 w seen); [done|].
        by apply elem_of_take_drop in Hq. }
      cbv beta iota.
      destruct (Z.of_nat (length page) <? 50)%Z eqn:Hshort.
      * exists s1. split; [done|]. split; [done|]. split; [done|].
        destruct Hf1 as [[-> Hp]|(-> & -> & -> & ->)]; [left; auto|right].
        do 4 (split; [done|]). intros q Hq Hm.
        apply Hcov1; [|done]. apply Z.ltb_lt in Hshort.
        unfold page in Hshort |- *. rewrite length_take in Hshort.
        rewrite take_ge; [done|]. lia.
      * apply Z.ltb_ge in Hshort.
        assert (Hlen : length page = 50).
        { unfold page in *. rewrite length_take in *. lia. }
        specialize (IH (o + 50)%Z s1 f1 d1 w2 Hinv2 ltac:(lia)).
        destruct (delete_scan lower f u t (o + 50) s1 f1 d1 w2) as [r w'].
        destruct IH as (s' & Hinv' & Hsub' & Hr).
        exists s'. split; [done|]. split; [set_solver|].
        destruct r as [e|[[s f'] d]].
        { destruct Hr as [-> Hr]. split; [done|]. right.
          pose proof (delete_inv_length _ _ _ _ _ _ _ _ Hinv1 Hinv2 Hsub1) as Hl.
          simpl in Hl. fold cur in Hl.
          assert (length (drop (Z.to_nat o) cur) >= 50).
          { unfold page in Hlen. rewrite length_take in Hlen. lia. }
          rewrite length_drop in H. destruct Hr as [->|Hr]; lia. }
        destruct Hr as [-> Hr]. split; [done|].
        destruct Hr as [[-> Hp]|(-> & -> & -> & Hpl & Hcov)].
        -- left. split; [done|].
           destruct Hf1 as [[-> [?|?]]|(? & -> & -> & ->)]; destruct Hp; auto;
             right; set_solver.
        -- destruct Hf1 as [[? _]|(_ & -> & -> & ->)]; [discriminate|].
           right. do 3 (split; [done|]). split; [done|].
           intros q Hq Hm.
           rewrite <- (take_drop 50 (drop (Z.to_nat o) cur)) in Hq.
           apply elem_of_app in Hq as [Hq|Hq]; [by apply Hcov1|].
           apply Hcov; [|done]. simpl. fold cur.
           rewrite drop_drop in Hq. by replace (Z.to_nat (o + 50)) with (Z.to_nat o + 50) by lia.
Qed.

Lemma size_list_to_set_le (l : list pystr) : size (list_to_set l : gset pystr) <= length l.
Proof.
  induction l as [|x l IH]; [rewrite list_to_set_nil, size_empty; simpl; lia|].
  rewrite list_to_set_cons, size_union_alt, size_singleton. simpl.
  pose proof (subseteq_size (list_to_set l ∖ {[x]} : gset pystr) (list_to_set l)
                ltac:(set_solver)). lia.
Qed.


Lemma delete_inv_seen lower u t w0 w s :
  delete_inv lower u t w0 w s -> s ⊆ playlist_ids w0.
Proof.
  intros (_ & _ & cs & _ & _ & _ & Hs & Hprov) pid Hp.
  apply Hs, Hprov in Hp as (p & Hp & _ & <-).
  unfold playlist_ids. apply elem_of_list_to_set, list_elem_of_fmap_2, Hp.
Qed.

Lemma delete_passes_spec lower u t w0 fuel n : forall seen deleted w,
  delete_inv lower u t w0 w seen ->
  let (r, w') := delete_passes lower fuel u t n seen deleted w in
  exists seen', delete_inv lower u t w0 w' seen' /\
  match r with
  | inl e => e = OutOfFuel /\
      (fuel = O \/ (50 * Z.of_nat fuel <= Z.of_nat (length (w_playlists w0)))%Z \/
       n + size seen <= size (playlist_ids w0))
  | inr _ => forall q, q ∈ w_playlists w0 -> owned_match lower u t q -> pl_id q ∈ seen'
  end.
Proof.
  induction n as [|n IH]; intros seen deleted w Hinv; simpl.
  - exists seen. split; [done|]. split; [done|]. right; right.
    apply subseteq_size. by eapply delete_inv_seen.
  - unfold bind.
    pose proof (delete_scan_spec lower u t w0 fuel 0 seen false deleted w Hinv
                  ltac:(lia)) as Hsc.
    destruct (delete_scan lower fuel u t 0 seen false deleted w) as [[e|[[s f] d]] w1].
    + destruct Hsc as (s' & Hinv1 & _ & -> & Hr). exists s'. split; [done|].
      split; [done|]. destruct Hr as [->|Hr]; [by left|right; left].
      pose proof (delete_inv_length lower u t w0 w0 w ∅ seen (delete_inv_init _ _ _ _)
                    Hinv ltac:(set_solver)). lia.
    + destruct Hsc as (s' & Hinv1 & Hsub & -> & Hr).
      destruct Hr as [[-> [?|Hlt]]|(-> & _ & -> & Hpl & Hcov)]; [discriminate| |].
      * specialize (IH s' d w1 Hinv1).
        destruct (delete_passes lower fuel u t n s' d w1) as [[e|z] w2].
        { destruct IH as (s'' & Hinv2 & -> & Hr). exists s''. split; [done|].
          split; [done|]. apply subset_size in Hlt. lia. }
        exact IH.
      * exists seen. split; [done|]. intros q Hq Hm.
        destruct (decide (pl_id q ∈ seen)) as [|Hn]; [done|].
        apply Hcov; [|done]. rewrite drop_0. destruct Hinv as [-> _].
        apply list_elem_of_filter. auto.
Qed.

(** C10: whatever the fuel and however the run ends, the unfollow calls
    of [delete_existing_playlists] are for pairwise distinct ids, each the
    id of a playlist of the listing it started from that the user owns and
    whose normalized name is the normalized target name; its other calls
    list playlists. *)
Theorem delete_existing_playlists_only_owned_matches lower fuel user_id name w :
  let (r, w') := delete_existing_playlists lower fuel user_id name w in
  exists cs, w_calls w' = w_calls w ++ cs /\
    Forall (fun c => (exists l o, c = CurrentUserPlaylists l o) \/
                     exists pid, c = UnfollowPlaylist pid) cs /\
    NoDup (unfollowed cs) /\
    forall pid, pid ∈ unfollowed cs ->
      exists p, p ∈ w_playlists w /\ pl_id p = pid /\ pl_id p <> [] /\
        pl_owner p = user_id /\ normalize lower (pl_name p) = normalize lower name.
Proof.
  unfold delete_existing_playlists.
  pose proof (delete_passes_spec lower user_id (normalize lower name) w fuel fuel ∅ 0%Z w
                (delete_inv_init _ _ _ _)) as H.
  destruct (delete_passes lower fuel user_id (normalize lower name) fuel ∅ 0%Z w) as [r w'].
  destruct H as (s & (_ & _ & cs & Hc & Hf & Hnd & _ & Hprov) & _).
  exists cs. do 3 (split; [done|]).
  intros pid Hp. destruct (Hprov pid Hp) as (p & Hin & (Hid & Hn & Ho) & <-).
  exists p. auto.
Qed.

Lemma delete_existing_playlists_complete lower fuel user_id name w :
  S (length (w_playlists w)) <= fuel ->
  let (r, w') := delete_existing_playlists lower fuel user_id name w in
  (exists d, r = inr d) /\ w_doc w' = w_doc w /\
  exists cs, w_calls w' = w_calls w ++ cs /\
    Forall (fun c => (exists l o, c = CurrentUserPlaylists l o) \/
                     exists pid, c = UnfollowPlaylist pid) cs /\
    NoDup (unfollowed cs) /\
    (forall q, q ∈ w_playlists w -> owned_match lower user_id (normalize lower name) q ->
       pl_id q ∈ unfollowed cs) /\
    (forall q, q ∈ w_playlists w' -> ~ owned_match lower user_id (normalize lower name) q) /\
    (forall pid, pid ∈ unfollowed cs -> exists p, p ∈ w_playlists w /\
       owned_match lower user_id (normalize lower name) p /\ pl_id p = pid).
Proof.
  intros Hfuel. unfold delete_existing_playlists.
  pose proof (delete_passes_spec lower user_id (normalize lower name) w fuel fuel ∅ 0%Z w
                (delete_inv_init _ _ _ _)) as H.
  destruct (delete_passes lower fuel user_id (normalize lower name) fuel ∅ 0%Z w)
    as [[e|d] w'].
  - exfalso. destruct H as (s & _ & -> & [Hf|[Hf|Hf]]); [lia|lia|].
    rewrite size_empty in Hf.
    pose proof (size_list_to_set_le (pl_id <$> w_playlists w)).
    unfold playlist_ids in Hf. rewrite length_fmap in H. lia.
  - destruct H as (s & (Hpl & Hdoc & cs & Hc & Hf & Hnd & Hs & Hprov) & Hcov).
    split; [eauto|]. split; [done|]. exists cs. do 3 (split; [done|]). split; [|split].
    + intros q Hq Hm. by apply Hs, Hcov.
    + intros q Hq Hm. rewrite Hpl in Hq. apply list_elem_of_filter in Hq as [Hn Hq].
      by apply Hn, Hcov.
    + exact Hprov.
Qed.

Lemma main_prefix lower sp rb cfg fuel w bands skipped overrides st :
  settings_pass cfg ->
  load_bands (w_doc w) (lstrip (cfg_not_found_hint cfg)) (lstrip (cfg_skipped_hint cfg))
    = (bands, skipped, overrides) ->
  fst (band_loop lower sp skipped overrides (cfg_track_limit cfg) (cfg_search_limit cfg)
         bands loop_init w) = inr st ->
  exists w2 cs1, w_playlists w2 = w_playlists w /\
    w_calls w2 = w_calls w ++ CurrentUser :: cs1 /\
    Forall (fun c => readonly_call c = true /\ searched_unskipped skipped c) cs1 /\
    main lower sp rb cfg fuel w =
    main_reconcile lower sp cfg fuel (api_user_id sp)
      (derive_playlist_name (w_doc w) (cfg_stem cfg)) st (desired_tracks rb cfg st) w2.
Proof.
  intros (Hex & Htl & Hsl & Hcs & Hcov) Hload Hloop. unfold main. cbv zeta.
  rewrite Hex. cbn [negb].
  rewrite (proj2 (Z.leb_gt _ _) Htl), (proj2 (Z.leb_gt _ _) Hsl), (proj2 (Z.leb_gt _ _) Hcs).
  replace (cfg_cover_image cfg && negb (cfg_cover_exists cfg)) with false
    by (destruct (cfg_cover_image cfg), (cfg_cover_exists cfg); naive_solver).
  rewrite (bind_inr get_doc _ w (w_doc w) w) by reflexivity.
  set (w1 := mk_world (w_playlists w) (w_calls w ++ [CurrentUser]) (w_doc w)).
  rewrite (bind_inr (issue CurrentUser) _ w tt w1) by reflexivity.
  rewrite Hload.
  destruct (band_loop_det lower sp skipped overrides (cfg_track_limit cfg)
              (cfg_search_limit cfg) bands loop_init w w1 eq_refl) as [Hd _].
  rewrite Hloop in Hd.
  destruct (calls_in_at _ _ w1 (band_loop_calls lower sp skipped overrides
              (cfg_track_limit cfg) (cfg_search_limit cfg) bands loop_init)) as (cs1 & E1 & F1).
  pose proof (band_loop_keeps lower sp skipped overrides (cfg_track_limit cfg)
              (cfg_search_limit cfg) bands loop_init w1) as Hk.
  destruct (band_loop _ _ _ _ _ _ _ _ w1) as [r w2] eqn:Eb. simpl in Hd, E1, Hk. subst r.
  rewrite (bind_inr _ _ _ _ _ Eb).
  exists w2, cs1. split; [done|]. split; [rewrite E1; simpl; by rewrite <- app_assoc|].
  split; [done|]. reflexivity.
Qed.

Lemma add_tracks_in_chunks_run pid uris k w :
  (0 < k)%Z -> exists w', add_tracks_in_chunks pid uris k w = (inr tt, w') /\
    w_playlists w' = w_playlists w.
Proof.
  intros Hk. unfold add_tracks_in_chunks, py_range.
  rewrite (proj2 (Z.eqb_neq k 0)) by lia. rewrite for_each_issue. eexists. split; reflexivity.
Qed.

Lemma maybe_upload_cover_run cfg pid w :
  exists w', maybe_upload_cover cfg pid w = (inr tt, w') /\ w_playlists w' = w_playlists w.
Proof.
  unfold maybe_upload_cover, upload_cover_image.
  destruct (cfg_cover_image cfg), (cfg_cover_small cfg); eexists; split; reflexivity.
Qed.

Lemma append_playlist_url_run url w :
  exists w', append_playlist_url url w = (inr tt, w') /\ w_calls w' = w_calls w /\
    w_playlists w' = w_playlists w.
Proof.
  unfold append_playlist_url, bind. simpl.
  destruct (list_find _ _) as [[i x]|]; eexists; repeat split.
Qed.

Lemma unfollowed_nil (cs : list call) :
  Forall (fun c => forall pid, c <> UnfollowPlaylist pid) cs -> unfollowed cs = [].
Proof.
  induction 1 as [|c cs Hc _ IH]; [done|]. unfold unfollowed in *. simpl.
  destruct c; try done. by destruct (Hc playlist_id).
Qed.

Lemma readonly_not_unfollow c : readonly_call c = true -> forall pid, c <> UnfollowPlaylist pid.
Proof. by destruct c. Qed.

Lemma find_existing_at lower fuel u name w w' r :
  w_playlists w' = w_playlists w ->
  fst (find_existing_playlist lower fuel u name w) = r ->
  exists w'' cs, find_existing_playlist lower fuel u name w' = (r, w'') /\
    w_playlists w'' = w_playlists w' /\ w_calls w'' = w_calls w' ++ cs /\
    Forall (fun c => exists l o, c = CurrentUserPlaylists l o) cs.
Proof.
  intros Hpl Hr. unfold find_existing_playlist in *.
  destruct (find_existing_go_det lower fuel u (normalize lower name) 0 w w' (eq_sym Hpl))
    as [Hd _].
  destruct (calls_in_at _ _ w' (find_existing_go_calls lower fuel u (normalize lower name) 0))
    as (cs & E & F).
  pose proof (find_existing_go_keeps lower fuel u (normalize lower name) 0 w') as Hk.
  destruct (find_existing_go lower fuel u (normalize lower name) 0 w') as [r' w''].
  simpl in *. subst. eauto 10.
Qed.

(** C4: with force-recreate set and a same-named playlist found, a run
    whose fuel exceeds the number of the user's playlists ends with a fresh
    playlist created; before the CreatePlaylist call it has unfollowed
    every playlist the user owns whose normalized name is the normalized
    target name (duplicates included), each id at most once, only such
    playlists, and none after it. *)
Theorem force_recreate_removes_every_duplicate lower sp rb cfg fuel w bands skipped overrides
    st existing :
  settings_pass cfg -> cfg_dry_run cfg = false -> cfg_force_recreate cfg = true ->
  load_bands (w_doc w) (lstrip (cfg_not_found_hint cfg)) (lstrip (cfg_skipped_hint cfg))
    = (bands, skipped, overrides) ->
  fst (band_loop lower sp skipped overrides (cfg_track_limit cfg) (cfg_search_limit cfg)
         bands loop_init w) = inr st ->
  desired_tracks rb cfg st <> [] ->
  fst (find_existing_playlist lower fuel (api_user_id sp)
         (derive_playlist_name (w_doc w) (cfg_stem cfg)) w) = inr (Some existing) ->
  S (length (w_playlists w)) <= fuel ->
  let name := derive_playlist_name (w_doc w) (cfg_stem cfg) in
  let target := normalize lower name in
  fst (main lower sp rb cfg fuel w) = inr Created /\
  exists pre post,
    w_calls (snd (main lower sp rb cfg fuel w)) =
      w_calls w ++ pre ++ CreatePlaylist (api_user_id sp) name true (cfg_description cfg) :: post /\
    NoDup (unfollowed (pre ++ post)) /\ unfollowed post = [] /\
    (forall q, q ∈ w_playlists w -> owned_match lower (api_user_id sp) target q ->
       pl_id q ∈ unfollowed pre) /\
    (forall pid, pid ∈ unfollowed pre ->
       exists q, q ∈ w_playlists w /\ owned_match lower (api_user_id sp) target q /\ pl_id q = pid).
Proof.
  intros Hset Hdry Hforce Hload Hloop Hne Hfind Hfuel name target.
  destruct (main_prefix lower sp rb cfg fuel w bands skipped overrides st Hset Hload Hloop)
    as (w2 & cs1 & Hpl2 & Hc2 & F2 & ->).
  fold name. set (deduped := desired_tracks rb cfg st) in *.
  unfold main_reconcile. rewrite Hdry. cbv zeta.
  destruct (update_bands_hints_run (ls_not_found_exact st) (ls_intentionally_skipped st)
              (lstrip (cfg_not_found_hint cfg)) (lstrip (cfg_skipped_hint cfg))
              (ls_artist_urls st) w2) as (w3 & Eu & Cu & Pu).
  rewrite (bind_inr _ _ _ _ _ Eu), bool_decide_false by done.
  destruct (find_existing_at lower fuel (api_user_id sp) name w w3 _
              ltac:(by rewrite Pu, Hpl2) Hfind) as (w4 & cs4 & Ef & Pf & Cf & Ff).
  rewrite (bind_inr _ _ _ _ _ Ef), Hforce. cbn [negb].
  pose proof (delete_existing_playlists_complete lower fuel (api_user_id sp) name w4
                ltac:(by rewrite Pf, Pu, Hpl2)) as Hdel.
  destruct (delete_existing_playlists lower fuel (api_user_id sp) name w4) as [r5 w5] eqn:Ed.
  destruct Hdel as ([d ->] & _ & cs5 & Cd & Fd & Nd & Cov & _ & Prov).
  rewrite (bind_inr _ _ _ _ _ Ed).
  set (w6 := mk_world (mk_playlist (api_new_playlist_id sp) name (api_user_id sp) :: w_playlists w5)
               (w_calls w5 ++ [CreatePlaylist (api_user_id sp) name true (cfg_description cfg)])
               (w_doc w5)).
  rewrite (bind_inr (create_playlist sp (api_user_id sp) name (cfg_description cfg)) _ w5
             (api_new_playlist_id sp) w6) by reflexivity.
  destruct Hset as (_ & _ & _ & Hk & _).
  destruct (add_tracks_in_chunks_run (api_new_playlist_id sp) deduped (cfg_chunk_size cfg) w6 Hk)
    as (w7 & Ea & _).
  destruct (calls_in_at _ _ w6 (add_tracks_in_chunks_calls (api_new_playlist_id sp) deduped
              (cfg_chunk_size cfg))) as (cs7 & C7 & F7).
  rewrite Ea in C7. simpl in C7. rewrite (bind_inr _ _ _ _ _ Ea).
  destruct (maybe_upload_cover_run cfg (api_new_playlist_id sp) w7) as (w8 & Ec & _).
  destruct (calls_in_at _ _ w7 (maybe_upload_cover_calls cfg (api_new_playlist_id sp)))
    as (cs8 & C8 & F8).
  rewrite Ec in C8. simpl in C8. rewrite (bind_inr _ _ _ _ _ Ec).
  destruct (append_playlist_url_run (playlist_url_of (api_new_playlist_id sp)) w8)
    as (w9 & Ep & Cp & _).
  rewrite (bind_inr _ _ _ _ _ Ep). simpl. split; [done|].
  assert (Hu1 : unfollowed cs1 = []).
  { apply unfollowed_nil. eapply Forall_impl; [exact F2|].
    intros c [Hc _]. by apply readonly_not_unfollow. }
  assert (Hu4 : unfollowed cs4 = []).
  { apply unfollowed_nil. eapply Forall_impl; [exact Ff|]. by intros c (l & o & ->). }
  assert (Hu7 : unfollowed cs7 = []).
  { apply unfollowed_nil. eapply Forall_impl; [exact F7|]. by intros c (l & ->). }
  assert (Hu8 : unfollowed cs8 = []).
  { apply unfollowed_nil. eapply Forall_impl; [exact F8|]. by intros c ->. }
  exists (CurrentUser :: cs1 ++ cs4 ++ cs5), (cs7 ++ cs8).
  assert (Hpre : unfollowed (CurrentUser :: cs1 ++ cs4 ++ cs5) = unfollowed cs5).
  { change (unfollowed (CurrentUser :: cs1 ++ cs4 ++ cs5)) with (unfollowed (cs1 ++ cs4 ++ cs5)).
    by rewrite !unfollowed_app, Hu1, Hu4. }
  assert (Hpost : unfollowed (cs7 ++ cs8) = []) by (by rewrite unfollowed_app, Hu7, Hu8).
  split.
  { rewrite Cp, C8, C7. unfold w6. simpl. rewrite Cd, Cf, Cu, Hc2.
    rewrite <- !app_assoc; simpl; rewrite <- ?app_assoc; reflexivity. }
  rewrite unfollowed_app, Hpre, Hpost, app_nil_r.
  split; [done|]. split; [done|].
  assert (Hw4 : w_playlists w4 = w_playlists w) by (by rewrite Pf, Pu, Hpl2).
  split.
  - intros q Hq Hm. apply Cov; [by rewrite Hw4|done].
  - intros pid Hp. destruct (Prov pid Hp) as (q & Hq & Hm & <-).
    exists q. rewrite <- Hw4. auto.
Qed.

Lemma get_playlist_track_uris_run sp pid w :
  get_playlist_track_uris sp pid w =
  (fst (get_playlist_track_uris sp pid w),
   mk_world (w_playlists w) (w_calls w ++ [PlaylistTracks pid]) (w_doc w)).
Proof. reflexivity. Qed.

(** C3 (amended): outside dry-run mode and without force-recreate, with a
    non-empty desired list, an existing same-named playlist whose track ids
    form the same set as the desired list, whatever their order, is
    classified unchanged: no replace or add call is issued and the listing
    is untouched. *)
Theorem same_track_set_unchanged lower sp rb cfg fuel w bands skipped overrides st
    existing existing_uris :
  settings_pass cfg -> cfg_dry_run cfg = false -> cfg_force_recreate cfg = false ->
  load_bands (w_doc w) (lstrip (cfg_not_found_hint cfg)) (lstrip (cfg_skipped_hint cfg))
    = (bands, skipped, overrides) ->
  fst (band_loop lower sp skipped overrides (cfg_track_limit cfg) (cfg_search_limit cfg)
         bands loop_init w) = inr st ->
  desired_tracks rb cfg st <> [] ->
  fst (find_existing_playlist lower fuel (api_user_id sp)
         (derive_playlist_name (w_doc w) (cfg_stem cfg)) w) = inr (Some existing) ->
  fst (get_playlist_track_uris sp (pl_id existing) w) = inr existing_uris ->
  set_eq existing_uris (desired_tracks rb cfg st) = true ->
  fst (main lower sp rb cfg fuel w) = inr Unchanged /\
  w_playlists (snd (main lower sp rb cfg fuel w)) = w_playlists w /\
  exists cs, w_calls (snd (main lower sp rb cfg fuel w)) = w_calls w ++ cs /\
    Forall (fun c => forall pid l, c <> ReplaceItems pid l /\ c <> AddItems pid l) cs.
Proof.
  intros Hset Hdry Hforce Hload Hloop Hne Hfind Huris Heq.
  destruct (main_prefix lower sp rb cfg fuel w bands skipped overrides st Hset Hload Hloop)
    as (w2 & cs1 & Hpl2 & Hc2 & F2 & ->).
  set (name := derive_playlist_name (w_doc w) (cfg_stem cfg)) in *.
  set (deduped := desired_tracks rb cfg st) in *.
  unfold main_reconcile. rewrite Hdry. cbv zeta.
  destruct (update_bands_hints_run (ls_not_found_exact st) (ls_intentionally_skipped st)
              (lstrip (cfg_not_found_hint cfg)) (lstrip (cfg_skipped_hint cfg))
              (ls_artist_urls st) w2) as (w3 & Eu & Cu & Pu).
  rewrite (bind_inr _ _ _ _ _ Eu), bool_decide_false by done.
  destruct (find_existing_at lower fuel (api_user_id sp) name w w3 _
              ltac:(by rewrite Pu, Hpl2) Hfind) as (w4 & cs4 & Ef & Pf & Cf & Ff).
  rewrite (bind_inr _ _ _ _ _ Ef), Hforce. cbn [negb].
  rewrite get_playlist_track_uris_run in Huris. simpl in Huris.
  rewrite (bind_inr _ _ w4 existing_uris _) by (rewrite get_playlist_track_uris_run; simpl;
    by rewrite <- Huris).
  rewrite Heq.
  set (w5 := mk_world (w_playlists w4) (w_calls w4 ++ [PlaylistTracks (pl_id existing)]) (w_doc w4)).
  destruct (maybe_upload_cover_run cfg (pl_id existing) w5) as (w6 & Ec & Pc).
  destruct (calls_in_at _ _ w5 (maybe_upload_cover_calls cfg (pl_id existing)))
    as (cs6 & C6 & F6).
  rewrite Ec in C6. simpl in C6. rewrite (bind_inr _ _ _ _ _ Ec).
  destruct (append_playlist_url_run (playlist_url_of (pl_id existing)) w6)
    as (w7 & Ep & Cp & Pp).
  rewrite (bind_inr _ _ _ _ _ Ep). simpl. split; [done|].
  split; [by rewrite Pp, Pc; unfold w5; simpl; rewrite Pf, Pu, Hpl2|].
  exists (CurrentUser :: cs1 ++ cs4 ++ [PlaylistTracks (pl_id existing)] ++ cs6).
  split.
  { rewrite Cp, C6. unfold w5. simpl. rewrite Cf, Cu, Hc2.
    rewrite <- !app_assoc; simpl; rewrite <- ?app_assoc; reflexivity. }
  constructor; [done|].
  repeat (apply Forall_app; split).
  - eapply Forall_impl; [exact F2|]. intros c [Hc _] pid l. by destruct c.
  - eapply Forall_impl; [exact Ff|]. by intros c (l' & o & ->).
  - repeat constructor; discriminate.
  - eapply Forall_impl; [exact F6|]. by intros c ->.
Qed.

Lemma load_bands_skipped_in_bands lines nfh skh b :
  let '(bands, skipped, _) := load_bands lines nfh skh in b ∈ skipped -> b ∈ bands.
Proof.
  unfold load_bands.
  assert (forall acc : list pystr * gset pystr * gmap pystr Z, (let '(bands, skipped, _) := acc in b ∈ skipped -> b ∈ bands) ->
    let '(bands, skipped, _) := fold_left (fun '(bands, skipped, overrides) line =>
    match match_marker_line HYPHEN line with
    | None => (bands, skipped, overrides)
    | Some (_, raw_name) =>
        let base_name := strip_status_hints raw_name nfh skh in
        let base_name := strip_spotify_link base_name in
        let '(base_name, override) := parse_band_entry base_name in
        let overrides := match override with
                         | Some n => <[base_name := n]> overrides
                         | None => overrides
                         end in
        let skipped := if bool_decide (skh <> []) && ends_with raw_name skh
                       then {[base_name]} ∪ skipped else skipped in
        (bands ++ [base_name], skipped, overrides)
    end) lines acc in b ∈ skipped -> b ∈ bands) as H.
  { induction lines as [|line lines IH]; intros [[bands skipped] ov] Hacc; simpl; [done|].
    apply IH. destruct (match_marker_line HYPHEN line) as [[m raw]|]; [|done].
    destruct (parse_band_entry _) as [base o]. intros Hb. apply elem_of_app.
    destruct (bool_decide (skh <> []) && ends_with raw skh).
    - apply elem_of_union in Hb as [->%elem_of_singleton|Hb]; [right; by left|left; auto].
    - left; auto. }
  apply H. set_solver.
Qed.

Lemma create_playlist_calls sp u name desc :
  calls_in (fun c => c = CreatePlaylist u name true desc) (create_playlist sp u name desc).
Proof. intros w. eexists. split; [reflexivity|]. by repeat constructor. Qed.

Lemma replace_playlist_tracks_calls pid uris k :
  calls_in (fun c => exists l, c = ReplaceItems pid l \/ c = AddItems pid l)
    (replace_playlist_tracks pid uris k).
Proof. unfold replace_playlist_tracks. frame_auto; apply calls_in_issue; eauto. Qed.

Lemma delete_existing_playlists_calls lower fuel u name :
  calls_in (fun c => (exists l o, c = CurrentUserPlaylists l o) \/
                     exists pid, c = UnfollowPlaylist pid)
    (delete_existing_playlists lower fuel u name).
Proof.
  intros w. unfold delete_existing_playlists.
  pose proof (delete_passes_spec lower u (normalize lower name) w fuel fuel ∅ 0%Z w
                (delete_inv_init _ _ _ _)) as H.
  destruct (delete_passes lower fuel u (normalize lower name) fuel ∅ 0%Z w) as [r w'].
  destruct H as (s & (_ & _ & cs & Hc & Hf & _) & _). eauto.
Qed.

Ltac no_search L :=
  eapply calls_in_mono; [|apply L]; intros ? Hc q l ->;
  repeat match goal with
         | H : exists _, _ |- _ => destruct H
         | H : _ \/ _ |- _ => destruct H
         end; discriminate.

Lemma main_reconcile_no_search lower sp cfg fuel u name st deduped :
  calls_in (fun c => forall q l, c <> Search q l)
    (main_reconcile lower sp cfg fuel u name st deduped).
Proof.
  unfold main_reconcile, find_existing_playlist. cbv zeta. frame_auto.
  all: first [ apply update_bands_hints_calls | apply append_playlist_url_calls
             | no_search find_existing_go_calls | no_search create_playlist_calls
             | no_search add_tracks_in_chunks_calls | no_search maybe_upload_cover_calls
             | no_search get_playlist_track_uris_calls | no_search replace_playlist_tracks_calls
             | no_search delete_existing_playlists_calls | idtac ].
Qed.

Lemma bind_get_doc {B} (k : list pystr -> M B) w : bind get_doc k w = k (w_doc w) w.
Proof. reflexivity. Qed.

Lemma main_searched_unskipped lower sp rb cfg fuel w bands skipped overrides :
  load_bands (w_doc w) (lstrip (cfg_not_found_hint cfg)) (lstrip (cfg_skipped_hint cfg))
    = (bands, skipped, overrides) ->
  exists cs, w_calls (snd (main lower sp rb cfg fuel w)) = w_calls w ++ cs /\
    Forall (searched_unskipped skipped) cs.
Proof.
  intros Hload. unfold main. cbv zeta.
  destruct (negb _); [exists []; by rewrite app_nil_r|].
  destruct (_ <=? _)%Z; [exists []; by rewrite app_nil_r|].
  destruct (_ <=? _)%Z; [exists []; by rewrite app_nil_r|].
  destruct (_ <=? _)%Z; [exists []; by rewrite app_nil_r|].
  destruct (_ && _); [exists []; by rewrite app_nil_r|].
  rewrite bind_get_doc, Hload. apply calls_in_at. frame_auto.
  - apply calls_in_issue. by intros q l ?.
  - eapply calls_in_mono; [|apply band_loop_calls]. by intros c [_ ?].
  - eapply calls_in_mono; [|apply main_reconcile_no_search].
    intros c Hc q l Heq. by destruct (Hc q l Heq).
  - eapply calls_in_mono; [|apply main_reconcile_no_search].
    intros c Hc q l Heq. by destruct (Hc q l Heq).
Qed.

Lemma band_step_skipped lower sp S ov tl sl st band w :
  band ∈ S ->
  band_step lower sp S ov tl sl st band w =
  (inr (mk_loop_state (ls_all_track_uris st) (ls_unresolved st ++ [band])
          (ls_not_found_exact st) ({[band]} ∪ ls_intentionally_skipped st)
          (ls_artist_urls st)), w).
Proof.
  intros Hb. unfold band_step, normalize_artist_query.
  rewrite (bool_decide_true _ Hb), bool_decide_true by done. reflexivity.
Qed.

Lemma band_step_not_found_grows lower sp S ov tl sl st band w b :
  b ∈ S -> b ∉ ls_not_found_exact st ->
  match fst (band_step lower sp S ov tl sl st band w) with
  | inr st' => (b ∉ ls_not_found_exact st') /\
      (b = band \/ b ∈ ls_intentionally_skipped st -> b ∈ ls_intentionally_skipped st')
  | inl _ => True
  end.
Proof.
  intros Hb Hnf. destruct (decide (band ∈ S)) as [Hin|Hout].
  - rewrite band_step_skipped by done. simpl. split; [done|]. set_solver.
  - unfold band_step, normalize_artist_query. rewrite (bool_decide_false _ Hout). cbv zeta.
    assert (b <> band) by (intros ->; contradiction).
    case_bool_decide as Hq; [subst; set_solver|].
    unfold bind. destruct (pick_best_artist _ _ _ _ _) as [[e|[a|]] w1]; simpl; [done| |].
    + unfold top_tracks_for_artist, bind, issue. simpl.
      case_bool_decide; simpl; split; (done || set_solver).
    + split; [set_solver|]. intros [->|?]; [done|set_solver].
Qed.

Lemma band_loop_skipped lower sp S ov tl sl b : forall bands st w st',
  b ∈ S -> b ∉ ls_not_found_exact st ->
  fst (band_loop lower sp S ov tl sl bands st w) = inr st' ->
  (b ∉ ls_not_found_exact st') /\
  (b ∈ bands \/ b ∈ ls_intentionally_skipped st -> b ∈ ls_intentionally_skipped st').
Proof.
  induction bands as [|band bands IH]; intros st w st' Hb Hnf Hr; simpl in Hr.
  - injection Hr as <-. split; [done|]. intros [Hx|Hx]; [inversion Hx|done].
  - pose proof (band_step_not_found_grows lower sp S ov tl sl st band w b Hb Hnf) as Hs.
    unfold bind in Hr.
    destruct (band_step lower sp S ov tl sl st band w) as [[e|st1] w1]; [discriminate|].
    simpl in Hs. destruct Hs as [Hnf1 Hs1].
    destruct (IH st1 w1 st' Hb Hnf1 Hr) as [? Hs2]. split; [done|].
    intros [Hx|Hx]; apply Hs2.
    + apply elem_of_cons in Hx as [->|Hx]; [right; auto|by left].
    + right; auto.
Qed.

(** C8: an entry of the bands file marked intentionally skipped is a
    band of the file; whatever the settings and the catalog, no call of
    the run searches the catalog for it; the band loop classifies it as
    intentionally skipped and never as not found, and its step returns
    normally without touching the state of the world. *)
Theorem skipped_entry_not_searched lower sp rb cfg fuel w bands skipped overrides b :
  load_bands (w_doc w) (lstrip (cfg_not_found_hint cfg)) (lstrip (cfg_skipped_hint cfg))
    = (bands, skipped, overrides) ->
  b ∈ skipped ->
  b ∈ bands /\
  (exists cs, w_calls (snd (main lower sp rb cfg fuel w)) = w_calls w ++ cs /\
     forall l, Search (str "artist:" ++ b) l ∉ cs) /\
  (forall st, fst (band_loop lower sp skipped overrides (cfg_track_limit cfg)
                     (cfg_search_limit cfg) bands loop_init w) = inr st ->
     b ∈ ls_intentionally_skipped st /\ b ∉ ls_not_found_exact st) /\
  (forall st w', exists st',
     band_step lower sp skipped overrides (cfg_track_limit cfg) (cfg_search_limit cfg) st b w'
       = (inr st', w') /\
     b ∈ ls_intentionally_skipped st' /\ ls_all_track_uris st' = ls_all_track_uris st /\
     ls_not_found_exact st' = ls_not_found_exact st).
Proof.
  intros Hload Hb.
  assert (Hbands : b ∈ bands).
  { pose proof (load_bands_skipped_in_bands (w_doc w) (lstrip (cfg_not_found_hint cfg))
                  (lstrip (cfg_skipped_hint cfg)) b) as H.
    rewrite Hload in H. auto. }
  split; [done|]. split; [|split].
  - destruct (main_searched_unskipped lower sp rb cfg fuel w bands skipped overrides Hload)
      as (cs & Hc & F). exists cs. split; [done|]. intros l Hin.
    rewrite Forall_forall in F. destruct (F _ Hin _ _ eq_refl) as (band & Hq & Hn).
    apply app_inv_head in Hq. subst. contradiction.
  - intros st Hr.
    destruct (band_loop_skipped lower sp skipped overrides (cfg_track_limit cfg)
                (cfg_search_limit cfg) b bands loop_init w st Hb ltac:(simpl; set_solver) Hr)
      as [? Hs].
    split; [auto|done].
  - intros st w'. eexists. rewrite band_step_skipped by done.
    split; [reflexivity|]. simpl. split; [set_solver|done].
Qed.

(* ------------------------------------------------------------------ *)
(** ** Concrete runs *)

Ltac discharge_concrete :=
  first [ vm_compute; reflexivity
        | vm_compute; discriminate
        | unfold settings_pass; vm_compute; repeat split; discriminate
        | vm_compute; lia ].

Lemma same_track_set_unchanged_witness :
  set_eq [fest_t2; fest_t1] [fest_t1; fest_t2] = true /\
  [fest_t2; fest_t1] <> [fest_t1; fest_t2] /\
  (fst (main ascii_lower fest_catalog (fun _ _ => O) (default_config (str "bands")) 10 fest_world)
     = inr Unchanged /\
   w_playlists (snd (main ascii_lower fest_catalog (fun _ _ => O)
                       (default_config (str "bands")) 10 fest_world)) = w_playlists fest_world /\
   exists cs, w_calls (snd (main ascii_lower fest_catalog (fun _ _ => O)
                              (default_config (str "bands")) 10 fest_world))
                = w_calls fest_world ++ cs /\
     Forall (fun c => forall pid l, c <> ReplaceItems pid l /\ c <> AddItems pid l) cs).
Proof.
  split; [vm_compute; reflexivity|]. split; [discriminate|].
  apply (same_track_set_unchanged ascii_lower fest_catalog (fun _ _ => O)
           (default_config (str "bands")) 10 fest_world [str "Alpha"] ∅ ∅ fest_state
           fest_old [fest_t2; fest_t1]); discharge_concrete.
Defined.

(** Three runs in which the existing playlist [old] holds the same set
    of tracks as the desired list and the run is not classified unchanged:
    with force-recreate [old] is unfollowed and a new playlist created and
    filled; in dry-run mode the run stops before any lookup of the
    playlist; with an empty desired list (and an empty [old]) the run
    aborts. *)
Lemma same_track_set_unchanged_counterexample :
  let cfg := force_recreate_config in
  let r := main ascii_lower fest_catalog (fun _ _ => O) cfg 10 fest_world in
  (fst (band_loop ascii_lower fest_catalog ∅ ∅ (cfg_track_limit cfg) (cfg_search_limit cfg)
          [str "Alpha"] loop_init fest_world) = inr fest_state /\
   desired_tracks (fun _ _ => O) cfg fest_state = [fest_t1; fest_t2] /\
   fst (find_existing_playlist ascii_lower 10 (str "me")
          (derive_playlist_name (w_doc fest_world) (cfg_stem cfg)) fest_world)
     = inr (Some fest_old) /\
   fst (get_playlist_track_uris fest_catalog (pl_id fest_old) fest_world)
     = inr [fest_t2; fest_t1] /\
   set_eq [fest_t2; fest_t1] [fest_t1; fest_t2] = true /\
   fst r = inr Created /\
   UnfollowPlaylist (str "old") ∈ w_calls (snd r) /\
   AddItems (str "new") [fest_t1; fest_t2] ∈ w_calls (snd r)) /\
  fst (main ascii_lower fest_catalog (fun _ _ => O) dry_run_config 10 fest_world)
    = inr DryRun /\
  (let sp := empty_catalog (str "me") in
   let cfg := default_config (str "bands") in
   fst (band_loop ascii_lower sp ∅ ∅ (cfg_track_limit cfg) (cfg_search_limit cfg)
          [str "Alpha"] loop_init fest_world)
     = inr (mk_loop_state [] [str "Alpha"] {[str "Alpha"]} ∅ ∅) /\
   fst (find_existing_playlist ascii_lower 10 (str "me")
          (derive_playlist_name (w_doc fest_world) (cfg_stem cfg)) fest_world)
     = inr (Some fest_old) /\
   fst (get_playlist_track_uris sp (pl_id fest_old) fest_world) = inr [] /\
   set_eq [] [] = true /\
   fst (main ascii_lower sp (fun _ _ => O) cfg 10 fest_world)
     = inl (SystemExit (str "No tracks found. Playlist was not created."))).
Proof.
  vm_compute. repeat split; try reflexivity.
  - do 5 right; left.
  - do 9 right; left.
Qed.

Lemma force_recreate_removes_every_duplicate_witness :
  let cfg := force_recreate_config in
  let w := fest_world in
  let name := derive_playlist_name (w_doc w) (cfg_stem cfg) in
  let target := normalize ascii_lower name in
  fst (main ascii_lower fest_catalog (fun _ _ => O) cfg 10 w) = inr Created /\
  exists pre post,
    w_calls (snd (main ascii_lower fest_catalog (fun _ _ => O) cfg 10 w)) =
      w_calls w ++ pre ++ CreatePlaylist (str "me") name true (cfg_description cfg) :: post /\
    NoDup (unfollowed (pre ++ post)) /\ unfollowed post = [] /\
    (forall q, q ∈ w_playlists w -> owned_match ascii_lower (str "me") target q ->
       pl_id q ∈ unfollowed pre) /\
    (forall pid, pid ∈ unfollowed pre ->
       exists q, q ∈ w_playlists w /\ owned_match ascii_lower (str "me") target q /\ pl_id q = pid).
Proof.
  apply (force_recreate_removes_every_duplicate ascii_lower fest_catalog (fun _ _ => O)
           force_recreate_config 10 fest_world [str "Alpha"] ∅ ∅ fest_state fest_old);
    discharge_concrete.
Defined.

Lemma skipped_entry_not_searched_witness :
  let cfg := default_config (str "bands") in
  let b := str "Gamma" in
  b ∈ [str "Gamma"; str "Alpha"] /\
  (exists cs, w_calls (snd (main ascii_lower fest_catalog (fun _ _ => O) cfg 10 fest_skip_world))
                = w_calls fest_skip_world ++ cs /\
     forall l, Search (str "artist:" ++ b) l ∉ cs) /\
  (forall st, fst (band_loop ascii_lower fest_catalog {[str "Gamma"]} ∅ (cfg_track_limit cfg)
                     (cfg_search_limit cfg) [str "Gamma"; str "Alpha"] loop_init
                     fest_skip_world) = inr st ->
     b ∈ ls_intentionally_skipped st /\ b ∉ ls_not_found_exact st) /\
  (forall st w', exists st',
     band_step ascii_lower fest_catalog {[str "Gamma"]} ∅ (cfg_track_limit cfg)
       (cfg_search_limit cfg) st b w' = (inr st', w') /\
     b ∈ ls_intentionally_skipped st' /\ ls_all_track_uris st' = ls_all_track_uris st /\
     ls_not_found_exact st' = ls_not_found_exact st).
Proof.
  apply (skipped_entry_not_searched ascii_lower fest_catalog (fun _ _ => O)
           (default_config (str "bands")) 10 fest_skip_world [str "Gamma"; str "Alpha"]
           {[str "Gamma"]} ∅ (str "Gamma")).
  - vm_compute. reflexivity.
  - apply elem_of_singleton. reflexivity.
Defined.
